(** * Hathora debug client: schema-driven forms and state display

    A shallow embedding of the generic shape handlers of
    [examples/avalon/client/.rtag/Forms.tsx] (the edit pipeline) and of the
    display components that accompany it (the display pipeline), together
    with the part of the JavaScript data model those handlers rely on:
    arrays indexed by numbers, objects with ordered own properties,
    [typeof], [Array.prototype.concat] / [splice] and [Object.entries]. *)

From Stdlib Require Import ZArith Ascii Decimal DecimalString DecimalPos DecimalZ.
From stdpp Require Import base decidable option list strings sorting.

Set Warnings "-register-all".
Local Open Scope Z_scope.

(** ** JavaScript values *)

Module JS.

(** Numbers are restricted to the integers, which covers array indices,
    lengths and the members of numeric enums (fractions, [NaN] and the
    infinities are left out).  Objects list their own properties in creation
    order. *)
Inductive jsval : Type :=
  | JUndefined
  | JNull
  | JBoolean (b : bool)
  | JNumber (n : Z)
  | JString (s : string)
  | JObject (props : list (string * jsval))
  | JArray (items : list jsval).

Definition typeof (v : jsval) : string :=
  match v with
  | JUndefined => "undefined"
  | JNull => "object"
  | JBoolean _ => "boolean"
  | JNumber _ => "number"
  | JString _ => "string"
  | JObject _ => "object"
  | JArray _ => "object"
  end.

(** [ToBoolean]. *)
Definition truthy (v : jsval) : bool :=
  match v with
  | JUndefined | JNull => false
  | JBoolean b => b
  | JNumber n => negb (n =? 0)
  | JString s => negb (String.eqb s EmptyString)
  | JObject _ | JArray _ => true
  end.

(** [v === undefined]. *)
Definition is_undefined (v : jsval) : bool :=
  match v with JUndefined => true | _ => false end.

(** *** Arrays

    An array is the sequence of its elements.  [a.length]: *)
Definition len (a : list jsval) : Z := Z.of_nat (length a).

(** [a[i]]: reading outside [0, a.length) gives [undefined]. *)
Definition Array_get (a : list jsval) (i : Z) : jsval :=
  if bool_decide (0 ≤ i) then default JUndefined (a !! Z.to_nat i)
  else JUndefined.

(** [a[i] = v]: inside the array the element is replaced; at or past the end
    the array is extended up to [i] (the skipped positions read as
    [undefined]); a negative [i] names an ordinary property of the array
    object and leaves the element sequence alone. *)
Definition Array_set (a : list jsval) (i : Z) (v : jsval) : list jsval :=
  if bool_decide (i < 0) then a
  else if bool_decide (i < len a) then <[Z.to_nat i := v]> a
  else a ++ replicate (Z.to_nat (i - len a)) JUndefined ++ [v].

(** [a.splice(start, deleteCount)], the array afterwards: a negative [start]
    counts from the end, and both arguments are clamped to the array. *)
Definition Array_splice (a : list jsval) (start deleteCount : Z) : list jsval :=
  let from := if bool_decide (start < 0) then Z.max (len a + start) 0
              else Z.min start (len a) in
  let count := Z.min (Z.max deleteCount 0) (len a - from) in
  take (Z.to_nat from) a ++ drop (Z.to_nat (from + count)) a.

(** [a.concat(item)]: a fresh array; an argument that is itself an array is
    spread, its elements are appended one by one. *)
Definition Array_concat (a : list jsval) (item : jsval) : list jsval :=
  match item with
  | JArray xs => a ++ xs
  | _ => a ++ [item]
  end.

(** *** Property keys

    [String(n)] for an integer [n]: the decimal numeral. *)
Definition number_to_string (n : Z) : string :=
  NilZero.string_of_int (Z.to_int n).

(** A key is numeric when it is the numeral of some integer, that is when it
    survives reading it as a number and printing it back. *)
Definition key_number (k : string) : option Z :=
  match NilZero.int_of_string k with
  | Some d =>
      if String.eqb (number_to_string (Z.of_int d)) k then Some (Z.of_int d)
      else None
  | None => None
  end.

Definition is_numeric_name (k : string) : bool :=
  match key_number k with Some _ => true | None => false end.

(** Array indices are the numeric keys in [0, 2^32 - 1). *)
Definition array_index (k : string) : option Z :=
  match key_number k with
  | Some n => if bool_decide (0 ≤ n < 2 ^ 32 - 1) then Some n else None
  | None => None
  end.

Definition is_array_index (k : string) : bool :=
  match array_index k with Some _ => true | None => false end.

(** *** Objects *)

Abbreviation jsobject := (list (string * jsval)).

(** [o[k]] on the own properties of [o]. *)
Fixpoint obj_get (o : jsobject) (k : string) : jsval :=
  match o with
  | [] => JUndefined
  | (k', v) :: o' => if String.eqb k' k then v else obj_get o' k
  end.

(** [o[k] = v]: an existing property keeps its place, a new one goes last. *)
Fixpoint obj_set (o : jsobject) (k : string) (v : jsval) : jsobject :=
  match o with
  | [] => [(k, v)]
  | (k', v') :: o' =>
      if String.eqb k' k then (k', v) :: o' else (k', v') :: obj_set o' k v
  end.

(** The order of two array-index properties. *)
Definition index_le (e1 e2 : string * jsval) : Prop :=
  default 0 (array_index e1.1) ≤ default 0 (array_index e2.1).

#[export] Instance index_le_dec e1 e2 : Decision (index_le e1 e2).
Proof. unfold index_le. apply _. Defined.

(** [Object.entries(o)]: array-index keys first, in ascending numeric order,
    then the other keys in creation order. *)
Definition Object_entries (o : jsobject) : jsobject :=
  merge_sort index_le (filter (λ e, is_array_index e.1) o)
  ++ filter (λ e, ¬ is_array_index e.1) o.

End JS.

(** ** Symbol tables *)

Module TS.
Import JS.

(** Modelled from the spec: the enum declarations of [./types] ([Role],
    [Vote], [QuestStatus], [GameStatus]) are not part of the sources; a
    symbol table maps each label to its numeric value and carries the
    reverse aliases from the numeral of the value back to the label.  This
    is the object TypeScript builds for [enum E { L0 = v0, L1 = v1, ... }],
    one statement [E[E["L"] = v] = "L"] per member, in declaration order. *)
Definition enum_object (members : list (string * Z)) : jsobject :=
  fold_left
    (λ E m, obj_set (obj_set E m.1 (JNumber m.2))
                    (number_to_string m.2) (JString m.1))
    members [].

(** What the reverse aliases give for the numeral of [k]: the name of the
    last member declared with the value [k], if there is one. *)
Definition alias (members : list (string * Z)) (k : Z) : jsval :=
  fold_left (λ acc m, if decide (m.2 = k) then JString m.1 else acc)
            members JUndefined.

(** Member names are distinct and none of them is a numeral. *)
Definition wf_enum (members : list (string * Z)) : Prop :=
  NoDup members.*1 ∧ Forall (λ m, is_numeric_name m.1 = false) members.

End TS.

(** ** The edit pipeline: [Forms.tsx] *)

Module Forms.
Import JS.

(** What one event handler of [ArrayInput] did: [after] is the array the
    component was rendered with, as the handler leaves it (the handlers
    write to it in place), and [updated] is the argument [update] was called
    with, if it was called. *)
Record ArrayEffect := {
  after : list jsval;
  updated : option (list jsval)
}.

Record Button := { disabled : bool; onClick : ArrayEffect }.

(** The click that does nothing. *)
Definition inert (value : list jsval) : ArrayEffect :=
  {| after := value; updated := None |}.

(** A disabled button swallows the click. *)
Definition click (value : list jsval) (b : Button) : ArrayEffect :=
  if disabled b then inert value else onClick b.

(** A handler that writes to the array in place hands that same array to
    [update]. *)
Definition in_place (e : ArrayEffect) : Prop := updated e = Some (after e).

(** [[value[i1], value[i2]] = [value[i2], value[i1]]; update(value)]: the
    right-hand side is read first, then the two targets are written from
    left to right. *)
Definition swapArgs (value : list jsval) (i1 i2 : Z) : ArrayEffect :=
  let rhs := (Array_get value i2, Array_get value i1) in
  let value1 := Array_set value i1 rhs.1 in
  let value2 := Array_set value1 i2 rhs.2 in
  {| after := value2; updated := Some value2 |}.

(** [value.splice(i, 1); update(value)]. *)
Definition deleteArg (value : list jsval) (i : Z) : ArrayEffect :=
  let value1 := Array_splice value i 1 in
  {| after := value1; updated := Some value1 |}.

(** One row of the widget: the child editor with its updater
    [val => update(Object.assign(value, { [i]: val }))], the two move
    buttons and the delete button. *)
Record ArrayItem := {
  child : jsval;
  childUpdate : jsval → ArrayEffect;
  moveUp : Button;
  moveDown : Button;
  remove : Button
}.

Record ArrayInputView := { rows : list ArrayItem; add : Button }.

Definition ArrayInput (value : list jsval) (initialVal : jsval)
  : ArrayInputView :=
  {| rows :=
       imap (λ (n : nat) (item : jsval),
               let i := Z.of_nat n in
               {| child := item;
                  childUpdate := λ val,
                    let value1 := Array_set value i val in
                    {| after := value1; updated := Some value1 |};
                  moveUp := {| disabled := bool_decide (i = 0);
                               onClick := swapArgs value i (i - 1) |};
                  moveDown := {| disabled := bool_decide (i = len value - 1);
                                 onClick := swapArgs value i (i + 1) |};
                  remove := {| disabled := false;
                               onClick := deleteArg value i |} |})
            value;
     add := {| disabled := false;
               onClick := {| after := value;
                             updated := Some (Array_concat value initialVal) |} |}
  |}.


(** [OptionalInput]: the switch, the argument its [onChange] passes to
    [update], and the value handed to the child editor when there is one. *)
Record OptionalInputView := {
  checked : bool;
  onChange : jsval;
  inner : option jsval
}.

Definition OptionalInput (value initialVal : jsval) : OptionalInputView :=
  {| checked := negb (is_undefined value);
     onChange := if is_undefined value then initialVal else JUndefined;
     inner := if negb (is_undefined value) then Some value else None |}.

(** [EnumInput]: the label on the list box button and the options of the
    list; the list box calls [update] with the [value] of the option that is
    picked. *)
Record ListboxOption := { key : jsval; optionValue : jsval; text : string }.

Record EnumInputView := { button : jsval; options : list ListboxOption }.

Definition EnumInput (value : Z) (enumType : jsobject) : EnumInputView :=
  {| button := obj_get enumType (number_to_string value);
     options :=
       map (λ e, {| key := e.2; optionValue := e.2; text := e.1 |})
           (filter (λ e, typeof e.2 = "number") (Object_entries enumType)) |}.

Definition select (o : ListboxOption) : jsval := optionValue o.

(** Modelled from the spec: the type [Response] of [./base] is not part of
    the sources; a response is tagged success or error, and an error carries
    a message. *)
Inductive Response := Success | Error (error : string).

(** How the promise returned by [submit] settles. *)
Inductive Settlement := Fulfilled (res : Response) | Rejected.

Section MethodForm.
Context {T : Type}.
Variable initialize : () → T.

(** The state cell of the form, the calls of [submit] that have not
    settled yet (each with the value it was given), and the notifications
    raised so far. *)
Record FormState := {
  staged : T;
  inFlight : list T;
  toasts : list string
}.

Inductive FormEvent :=
  | Edit (v : T)
  | ClickSubmit
  | Settle (k : nat) (s : Settlement).

Definition mount : FormState :=
  {| staged := initialize (); inFlight := []; toasts := [] |}.

(** The rest of the click handler, run when [await submit(value)] resumes;
    a rejection leaves the handler at the [await]. *)
Definition resume (st : FormState) (s : Settlement) : FormState :=
  match s with
  | Fulfilled res =>
      {| staged := initialize ();
         inFlight := inFlight st;
         toasts := match res with
                   | Error error => toasts st ++ [error]
                   | Success => toasts st
                   end |}
  | Rejected => st
  end.

Definition MethodForm (st : FormState) (ev : FormEvent) : FormState :=
  match ev with
  | Edit v =>
      {| staged := v; inFlight := inFlight st; toasts := toasts st |}
  | ClickSubmit =>
      {| staged := staged st;
         inFlight := inFlight st ++ [staged st];
         toasts := toasts st |}
  | Settle k s =>
      match inFlight st !! k with
      | Some _ =>
          resume {| staged := staged st;
                    inFlight := delete k (inFlight st);
                    toasts := toasts st |} s
      | None => st
      end
  end.

Definition run (st : FormState) (evs : list FormEvent) : FormState :=
  fold_left MethodForm evs st.
End MethodForm.

End Forms.

(** ** The display pipeline *)

Module Base.
(** Modelled from the spec: [UserData] of [./base] is not part of the
    sources; the display reads its fields [id] and [type]. *)
Record UserData := { id : string; type : string }.
End Base.

Module Display.
Import JS.

(** [ArrayDisplay]: the initial value of the [isCollapsed] state cell, and
    the toggle button. *)
Definition ArrayDisplay (value : list jsval) : bool :=
  truthy (JArray value)
  && ((String.eqb (typeof (Array_get value 0)) "object"
       && bool_decide (len value > 7))
      || bool_decide (len value > 4)).

Definition setIsCollapsed (isCollapsed : bool) : bool := negb isCollapsed.

(** [EnumDisplay]: what is put inside the span, [labels[props.value]]. *)
Definition labels (enum : jsobject) : list jsval :=
  map (λ e, JString e.1)
      (filter (λ e, typeof e.2 = "number") (Object_entries enum)).

Definition EnumDisplay (value : Z) (enum : jsobject) : jsval :=
  Array_get (labels enum) value.

(** The values behind the labels, in the same order. *)
Definition values (enum : jsobject) : list jsval :=
  map (λ e, e.2) (filter (λ e, typeof e.2 = "number") (Object_entries enum)).

Inductive Icon := UserCircleIcon | PlusSmIcon | MinusSmIcon.

(** What [UserIdDisplay] renders: the bare identifier, or a panel with a
    title, a toggle button and, when expanded, labelled string fields. *)
Inductive UserIdView :=
  | Identifier (icon : Icon) (value : string)
  | Panel (icon : Icon) (title : string) (toggle : Icon)
          (fields : list (string * string)).

Inductive Lookup := Resolved (userData : option Base.UserData) | Failed.

Inductive UserIdEvent :=
  | Render (value : string)
  | LookupSettled (l : Lookup)
  | ClickToggle.

Section UserIdDisplay.
Variable getUserDisplayName : Base.UserData → string.

Record UserIdState := {
  value : string;
  isCollapsed : bool;
  userData : option Base.UserData
}.

(** First render: both state cells at their initial values; the effect
    calls [lookupUser(value)] once. *)
Definition mount (value : string) : UserIdState * list string :=
  ({| value := value; isCollapsed := true; userData := None |}, [value]).

Definition UserIdDisplay (st : UserIdState) : UserIdView :=
  match userData st with
  | None => Identifier UserCircleIcon (value st)
  | Some ud =>
      Panel UserCircleIcon (getUserDisplayName ud)
            (if isCollapsed st then PlusSmIcon else MinusSmIcon)
            (if negb (isCollapsed st)
             then [("UserId", Base.id ud); ("type", Base.type ud)]
             else [])
  end.

(** One event: the new state and the identifiers [lookupUser] is called
    with.  The effect runs again only when [value] changes; a rejected
    lookup never reaches [setUserData]; the toggle button exists only in
    the panel. *)
Definition step (st : UserIdState) (ev : UserIdEvent)
  : UserIdState * list string :=
  match ev with
  | Render value' =>
      ({| value := value'; isCollapsed := isCollapsed st;
          userData := userData st |},
       if String.eqb value' (value st) then [] else [value'])
  | LookupSettled (Resolved ud) =>
      ({| value := value st; isCollapsed := isCollapsed st;
          userData := ud |}, [])
  | LookupSettled Failed => (st, [])
  | ClickToggle =>
      match userData st with
      | Some _ =>
          ({| value := value st; isCollapsed := negb (isCollapsed st);
              userData := userData st |}, [])
      | None => (st, [])
      end
  end.

(** A sequence of events from a given state, with all the identifiers
    [lookupUser] was called with on the way. *)
Definition steps (st : UserIdState) (evs : list UserIdEvent)
  : UserIdState * list string :=
  fold_left (λ acc ev, let r := step acc.1 ev in (r.1, acc.2 ++ r.2))
            evs (st, []).

(** The events that bring no descriptor: a lookup that resolves to
    [undefined] or is rejected, a click, a render with the same
    identifier. *)
Definition brings_nothing (st : UserIdState) (ev : UserIdEvent) : bool :=
  match ev with
  | Render value' => String.eqb value' (value st)
  | LookupSettled (Resolved (Some _)) => false
  | LookupSettled (Resolved None) => true
  | LookupSettled Failed => true
  | ClickToggle => true
  end.
End UserIdDisplay.

End Display.

(** ** The edit pipeline, continued: sequences of edits, record inputs,
    integer input *)

Module Editing.
Import JS Forms.

(** *** [ArrayInput] under a sequence of user actions *)

Inductive ArrayEvent :=
  | MoveUp (n : nat)
  | MoveDown (n : nat)
  | Remove (n : nat)
  | Change (n : nat) (val : jsval)
  | Append.

(** An action on row [n] reaches a handler only when that row is
    rendered. *)
Definition on_row (value : list jsval) (initialVal : jsval) (n : nat)
    (f : ArrayItem → ArrayEffect) : ArrayEffect :=
  match rows (ArrayInput value initialVal) !! n with
  | Some row => f row
  | None => inert value
  end.

Definition handle (value : list jsval) (initialVal : jsval) (ev : ArrayEvent)
  : ArrayEffect :=
  match ev with
  | MoveUp n => on_row value initialVal n (λ row, click value (moveUp row))
  | MoveDown n => on_row value initialVal n (λ row, click value (moveDown row))
  | Remove n => on_row value initialVal n (λ row, click value (remove row))
  | Change n val => on_row value initialVal n (λ row, childUpdate row val)
  | Append => click value (add (ArrayInput value initialVal))
  end.

(** Every caller stores what [update] hands it and renders the widget with
    it again; when [update] was not called nothing is rendered anew. *)
Definition rendered_next (e : ArrayEffect) : list jsval :=
  default (after e) (updated e).

Definition edits (value : list jsval) (initialVal : jsval)
    (evs : list ArrayEvent) : list jsval :=
  fold_left (λ v ev, rendered_next (handle v initialVal ev)) evs value.

Definition is_move (ev : ArrayEvent) : bool :=
  match ev with MoveUp _ | MoveDown _ => true | _ => false end.

Definition is_move_or_remove (ev : ArrayEvent) : bool :=
  match ev with MoveUp _ | MoveDown _ | Remove _ => true | _ => false end.

(** Move-up on row [n], then on the row above it, and so on up to row 1. *)
Fixpoint to_front (n : nat) : list ArrayEvent :=
  match n with
  | O => []
  | S n' => MoveUp n :: to_front n'
  end.

(** *** Record inputs

    [{ ...value, [name]: v }]: the own properties of [value] copied in the
    order of [Object.entries], then [name] set to [v]. *)
Definition spread_with (value : jsobject) (name : string) (v : jsval)
  : jsobject :=
  obj_set (Object_entries value) name v.

(** One field of a record input: the label, the value [value.name] handed to
    the editor of the field, and the record its updater
    [v => update({ ...value, name: v })] hands on. *)
Record Field := {
  label : string;
  current : jsval;
  pass : jsval → jsobject
}.

Definition field (value : jsobject) (name : string) : Field :=
  {| label := name;
     current := obj_get value name;
     pass := spread_with value name |}.

Definition RoleInfoInput (value : jsobject) : list Field :=
  [field value "role"; field value "isEvil"; field value "knownRoles";
   field value "quantity"].

Definition PlayerAndVoteInput (value : jsobject) : list Field :=
  [field value "player"; field value "vote"].

Definition QuestAttemptInput (value : jsobject) : list Field :=
  [field value "id"; field value "status"; field value "roundNumber";
   field value "attemptNumber"; field value "leader"; field value "members";
   field value "proposalVotes"; field value "results";
   field value "numFailures"].

Definition PlayerStateInput (value : jsobject) : list Field :=
  [field value "status"; field value "rolesInfo"; field value "creator";
   field value "players"; field value "role"; field value "knownPlayers";
   field value "playersPerQuest"; field value "quests"].

(** The fields inside the method forms of [Forms]. *)
Definition startGame (value : jsobject) : list Field :=
  [field value "roleList"; field value "playerOrder"; field value "leader"].

Definition proposeQuest (value : jsobject) : list Field :=
  [field value "questId"; field value "proposedMembers"].

Definition voteForProposal (value : jsobject) : list Field :=
  [field value "questId"; field value "vote"].

Definition voteInQuest (value : jsobject) : list Field :=
  [field value "questId"; field value "vote"].

(** The [vote] field of [PlayerAndVoteInput] is an [OptionalInput] with the
    default [0]; a click on its switch hands on this record. *)
Definition vote_switch (value : jsobject) : jsobject :=
  spread_with value "vote"
    (onChange (OptionalInput (obj_get value "vote") (JNumber 0))).

(** A method form over a record: the user edits one field, or clicks
    Submit, or a call of [submit] settles. *)
Inductive RecordFormEvent :=
  | SetField (name : string) (v : jsval)
  | Submit
  | Settled (k : nat) (s : Settlement).

Definition record_event (st : FormState (T := jsobject))
    (ev : RecordFormEvent) : FormEvent (T := jsobject) :=
  match ev with
  | SetField name v => Edit (pass (field (staged st) name) v)
  | Submit => ClickSubmit
  | Settled k s => Settle k s
  end.

Definition record_form (initialize : () → jsobject)
    (st : FormState (T := jsobject)) (evs : list RecordFormEvent)
  : FormState (T := jsobject) :=
  fold_left (λ st ev, MethodForm initialize st (record_event st ev)) evs st.

(** What a sequence of field edits leaves in the field [k] of a record
    that held [d] there: the last value set for [k], if any. *)
Definition last_set (sets : list (string * jsval)) (k : string) (d : jsval)
  : jsval :=
  fold_left (λ acc s, if decide (s.1 = k) then s.2 else acc) sets d.

(** *** [IntInput]

    [parseInt(text)] with no radix, on text made of ASCII characters; [None]
    stands for [NaN].  Leading white space is skipped, a sign is read, a
    [0x] or [0X] prefix selects base 16, and the longest run of digits that
    follows is the result, whatever comes after it. *)
Definition is_white_space (c : Ascii.ascii) : bool :=
  let n := Ascii.N_of_ascii c in
  ((9 <=? n)%N && (n <=? 13)%N) || (n =? 32)%N.

Fixpoint trim_start (s : string) : string :=
  match s with
  | String c s' => if is_white_space c then trim_start s' else s
  | EmptyString => s
  end.

Definition dec_digit (c : Ascii.ascii) : option (Decimal.uint → Decimal.uint) :=
  match c with
  | "0" => Some Decimal.D0 | "1" => Some Decimal.D1 | "2" => Some Decimal.D2
  | "3" => Some Decimal.D3 | "4" => Some Decimal.D4 | "5" => Some Decimal.D5
  | "6" => Some Decimal.D6 | "7" => Some Decimal.D7 | "8" => Some Decimal.D8
  | "9" => Some Decimal.D9
  | _ => None
  end%char.

Fixpoint dec_prefix (s : string) : Decimal.uint :=
  match s with
  | String c s' =>
      match dec_digit c with
      | Some d => d (dec_prefix s')
      | None => Decimal.Nil
      end
  | EmptyString => Decimal.Nil
  end.

Definition hex_digit (c : Ascii.ascii)
  : option (Hexadecimal.uint → Hexadecimal.uint) :=
  match c with
  | "0" => Some Hexadecimal.D0 | "1" => Some Hexadecimal.D1
  | "2" => Some Hexadecimal.D2 | "3" => Some Hexadecimal.D3
  | "4" => Some Hexadecimal.D4 | "5" => Some Hexadecimal.D5
  | "6" => Some Hexadecimal.D6 | "7" => Some Hexadecimal.D7
  | "8" => Some Hexadecimal.D8 | "9" => Some Hexadecimal.D9
  | "a" | "A" => Some Hexadecimal.Da | "b" | "B" => Some Hexadecimal.Db
  | "c" | "C" => Some Hexadecimal.Dc | "d" | "D" => Some Hexadecimal.Dd
  | "e" | "E" => Some Hexadecimal.De | "f" | "F" => Some Hexadecimal.Df
  | _ => None
  end%char.

Fixpoint hex_prefix (s : string) : Hexadecimal.uint :=
  match s with
  | String c s' =>
      match hex_digit c with
      | Some d => d (hex_prefix s')
      | None => Hexadecimal.Nil
      end
  | EmptyString => Hexadecimal.Nil
  end.

Definition read_sign (s : string) : Z * string :=
  match s with
  | String "-" s' => (-1, s')
  | String "+" s' => (1, s')
  | _ => (1, s)
  end.

Definition read_digits (s : string) : option Z :=
  match s with
  | String "0" (String ("x" | "X") s') =>
      match hex_prefix s' with
      | Hexadecimal.Nil => None
      | digits => Some (Z.of_hex_uint digits)
      end
  | _ =>
      match dec_prefix s with
      | Decimal.Nil => None
      | digits => Some (Z.of_uint digits)
      end
  end.

Definition parseInt (text : string) : option Z :=
  let (sign, rest) := read_sign (trim_start text) in
  match read_digits rest with
  | Some n => Some (sign * n)
  | None => None
  end.

(** Text made of ASCII characters only.  On such text the white space
    that [parseInt] skips is the six characters of [is_white_space]; the
    no-break space, the byte order mark and the other Unicode spaces it
    also skips lie outside. *)
Definition is_ascii_char (c : Ascii.ascii) : bool :=
  (Ascii.N_of_ascii c <? 128)%N.

Fixpoint ascii_text (text : string) : bool :=
  match text with
  | String c rest => is_ascii_char c && ascii_text rest
  | EmptyString => true
  end.

(** The text that may follow a numeral without changing what [parseInt]
    reads: nothing, or something that does not start with a digit, [x] or
    [X]. *)
Definition stops (rest : string) : Prop :=
  match rest with
  | EmptyString => True
  | String c _ => dec_digit c = None ∧ c ≠ "x"%char ∧ c ≠ "X"%char
  end.

(** The input box shows [String(value)]; on a change event with the text
    [text] the component calls [update(parseInt(text))]. *)
Definition IntInput_shown (value : Z) : string := number_to_string value.

Definition IntInput (text : string) : option Z := parseInt text.

End Editing.

(** ** The display pipeline, continued: collapse state over time *)

Module Viewing.
Import JS Display.

(** *** [ArrayDisplay] *)

Record ArrayDisplayState := {
  shown : list jsval;
  collapsed : bool
}.

Inductive DisplayEvent :=
  | Rerender (value : list jsval)
  | Toggle.

(** [useState] takes its argument on the first render only. *)
Definition ArrayDisplay_mount (value : list jsval) : ArrayDisplayState :=
  {| shown := value; collapsed := ArrayDisplay value |}.

(** [props.value && props.value.length > 0], the guard of the toggle button
    and of everything between the brackets. *)
Definition has_items (value : list jsval) : bool :=
  truthy (JArray value) && bool_decide (len value > 0).

Definition ArrayDisplay_step (st : ArrayDisplayState) (ev : DisplayEvent)
  : ArrayDisplayState :=
  match ev with
  | Rerender value => {| shown := value; collapsed := collapsed st |}
  | Toggle =>
      if has_items (shown st)
      then {| shown := shown st; collapsed := setIsCollapsed (collapsed st) |}
      else st
  end.

Definition ArrayDisplay_run (st : ArrayDisplayState) (evs : list DisplayEvent)
  : ArrayDisplayState :=
  fold_left ArrayDisplay_step evs st.

(** What is drawn between the brackets: the toggle with its icon, the item
    count with its noun, the items handed to [props.children] with the
    direction they are laid out in ([true] for a row), and the ellipsis. *)
Record ArrayDisplayView := {
  toggle : option Icon;
  count : option (Z * string);
  children : list jsval;
  in_a_row : option bool;
  ellipsis : bool
}.

Definition ArrayDisplay_view (st : ArrayDisplayState) : ArrayDisplayView :=
  if has_items (shown st) then
    {| toggle := Some (if collapsed st then PlusSmIcon else MinusSmIcon);
       count := Some (len (shown st),
                      if bool_decide (len (shown st) = 1) then "item"
                      else "items");
       children := if negb (collapsed st) then shown st else [];
       in_a_row := if negb (collapsed st)
                   then Some (bool_decide
                                (typeof (Array_get (shown st) 0) = "object"))
                   else None;
       ellipsis := collapsed st |}
  else
    {| toggle := None; count := None; children := []; in_a_row := None;
       ellipsis := false |}.

(** *** [OptionalDisplay] *)

Inductive OptionalView := NoneText | Child (value : jsval).

Definition OptionalDisplay (value : jsval) : OptionalView :=
  if is_undefined value then NoneText else Child value.

(** *** [PluginDisplay], [PointDisplay], [PlayerDisplay]

    The three share one collapse state: it starts expanded, and the toggle
    button is rendered only when [isCollapsible] is set. *)
Section Collapsible.
Variable isCollapsible : bool.

Definition collapsible_mount : bool := false.

Definition click_toggle (isCollapsed : bool) : bool :=
  if isCollapsible then setIsCollapsed isCollapsed else isCollapsed.

Definition clicks (n : nat) : bool := Nat.iter n click_toggle collapsible_mount.

(** What [PluginDisplay] renders: the custom element named [component],
    or the collapsed placeholder; in both cases the button when there is
    one. *)
Inductive PluginView :=
  | PluginElement (button : option Icon) (component : string)
  | PluginCollapsed (button : option Icon).

Definition PluginDisplay (component : string) (isCollapsed : bool)
  : PluginView :=
  let button := if isCollapsible
                then Some (if isCollapsed then PlusSmIcon else MinusSmIcon)
                else None in
  if negb isCollapsed then PluginElement button component
  else PluginCollapsed button.
End Collapsible.

(** [State]: the plugin of the player state, not collapsible. *)
Definition State (isCollapsed : bool) : PluginView :=
  PluginDisplay false "player-state-plugin" isCollapsed.

(** *** [UserIdDisplay] over a sequence of events *)

(** What the last lookup that resolved brought, if one resolved. *)
Definition last_resolved (evs : list UserIdEvent)
  : option (option Base.UserData) :=
  fold_left (λ acc ev,
               match ev with
               | LookupSettled (Resolved ud) => Some ud
               | _ => acc
               end)
            evs None.

(** The identifiers the component was rendered with. *)
Definition rendered_with (evs : list UserIdEvent) : list string :=
  omap (λ ev, match ev with Render value => Some value | _ => None end) evs.

End Viewing.


(** ** Arrays: reading, writing and splicing inside the bounds *)

Section ArrayFacts.
Import JS.
Implicit Types (a : list jsval) (i j : Z) (v x : jsval).

Lemma len_nonneg a : 0 ≤ len a.
Proof. unfold len. lia. Qed.

Lemma len_app a1 a2 : len (a1 ++ a2) = len a1 + len a2.
Proof. unfold len. rewrite length_app. lia. Qed.

Lemma Array_get_lookup a i :
  0 ≤ i → Array_get a i = default JUndefined (a !! Z.to_nat i).
Proof. intros Hi. unfold Array_get. by rewrite bool_decide_eq_true_2. Qed.

Lemma Array_get_Some a i x :
  0 ≤ i → a !! Z.to_nat i = Some x → Array_get a i = x.
Proof. intros Hi Hx. by rewrite Array_get_lookup, Hx. Qed.

Lemma Array_get_outside a i : ¬ (0 ≤ i < len a) → Array_get a i = JUndefined.
Proof.
  intros Hi. unfold Array_get. case_bool_decide; [|done].
  rewrite lookup_ge_None_2; [done|]. unfold len in Hi. lia.
Qed.

Lemma Array_set_inside a i v :
  0 ≤ i < len a → Array_set a i v = <[Z.to_nat i := v]> a.
Proof.
  intros Hi. unfold Array_set.
  rewrite bool_decide_eq_false_2 by lia.
  by rewrite bool_decide_eq_true_2 by lia.
Qed.

Lemma len_Array_set_inside a i v : 0 ≤ i < len a → len (Array_set a i v) = len a.
Proof.
  intros Hi. rewrite Array_set_inside by done.
  unfold len. by rewrite length_insert.
Qed.

Lemma Array_get_set_eq a i v : 0 ≤ i < len a → Array_get (Array_set a i v) i = v.
Proof.
  intros Hi. rewrite Array_set_inside by done.
  apply Array_get_Some; [lia|].
  apply list_lookup_insert_eq. unfold len in Hi. lia.
Qed.

Lemma Array_get_set_ne a i j v :
  0 ≤ i < len a → i ≠ j → Array_get (Array_set a i v) j = Array_get a j.
Proof.
  intros Hi Hij. rewrite Array_set_inside by done.
  unfold Array_get. case_bool_decide; [|done].
  rewrite list_lookup_insert_ne; [done|lia].
Qed.

(** Two arrays with the same length and the same elements are equal. *)
Lemma Array_ext a1 a2 :
  len a1 = len a2 →
  (∀ i, 0 ≤ i < len a1 → Array_get a1 i = Array_get a2 i) →
  a1 = a2.
Proof.
  unfold len. intros Hlen Hget.
  apply list_eq_same_length with (length a1); [lia | lia |].
  intros n x y Hn Hx Hy.
  specialize (Hget (Z.of_nat n) ltac:(lia)).
  rewrite !Array_get_lookup, !Nat2Z.id, Hx, Hy in Hget by lia. done.
Qed.

Lemma Array_splice_one a i :
  0 ≤ i < len a → Array_splice a i 1 = delete (Z.to_nat i) a.
Proof.
  intros Hi. unfold Array_splice.
  rewrite bool_decide_eq_false_2 by lia.
  rewrite delete_take_drop.
  replace (Z.min i (len a)) with i by lia.
  replace (Z.min (Z.max 1 0) (len a - i)) with 1 by lia.
  by replace (Z.to_nat (i + 1)) with (S (Z.to_nat i)) by lia.
Qed.

End ArrayFacts.

(** ** [ArrayInput]: the four edit operations *)

Section ArrayInputFacts.
Import JS Forms.
Implicit Types (value : list jsval) (initialVal val : jsval) (i j : Z).

Lemma ArrayInput_rows_length value initialVal :
  length (rows (ArrayInput value initialVal)) = length value.
Proof. simpl. apply length_imap. Qed.

Lemma ArrayInput_row value initialVal (n : nat) row :
  rows (ArrayInput value initialVal) !! n = Some row →
  0 ≤ Z.of_nat n < len value
  ∧ value !! n = Some (child row)
  ∧ (∀ val, childUpdate row val
            = {| after := Array_set value (Z.of_nat n) val;
                 updated := Some (Array_set value (Z.of_nat n) val) |})
  ∧ moveUp row = {| disabled := bool_decide (Z.of_nat n = 0);
                    onClick := swapArgs value (Z.of_nat n) (Z.of_nat n - 1) |}
  ∧ moveDown row = {| disabled := bool_decide (Z.of_nat n = len value - 1);
                      onClick := swapArgs value (Z.of_nat n) (Z.of_nat n + 1) |}
  ∧ remove row = {| disabled := false; onClick := deleteArg value (Z.of_nat n) |}.
Proof.
  simpl. rewrite list_lookup_imap. intros Hrow.
  destruct (value !! n) as [item|] eqn:Hitem; simplify_eq/=.
  apply lookup_lt_Some in Hitem. unfold len. repeat split; lia || done.
Qed.

Lemma swapArgs_in_place value i1 i2 : in_place (swapArgs value i1 i2).
Proof. done. Qed.

Lemma swapArgs_len value i1 i2 :
  0 ≤ i1 < len value → 0 ≤ i2 < len value →
  len (after (swapArgs value i1 i2)) = len value.
Proof.
  intros H1 H2. simpl.
  rewrite len_Array_set_inside; rewrite len_Array_set_inside; done.
Qed.

Lemma swapArgs_get value i1 i2 j :
  0 ≤ i1 < len value → 0 ≤ i2 < len value →
  Array_get (after (swapArgs value i1 i2)) j
  = if decide (j = i2) then Array_get value i1
    else if decide (j = i1) then Array_get value i2
    else Array_get value j.
Proof.
  intros H1 H2. simpl.
  destruct (decide (j = i2)) as [->|Hj2].
  { by rewrite Array_get_set_eq by (by rewrite len_Array_set_inside). }
  rewrite Array_get_set_ne by (by rewrite ?len_Array_set_inside).
  destruct (decide (j = i1)) as [->|Hj1].
  - by rewrite Array_get_set_eq.
  - by rewrite Array_get_set_ne.
Qed.

Lemma swapArgs_involutive value i1 i2 :
  0 ≤ i1 < len value → 0 ≤ i2 < len value →
  after (swapArgs (after (swapArgs value i1 i2)) i1 i2) = value.
Proof.
  intros H1 H2.
  pose proof (swapArgs_len value i1 i2 H1 H2) as Hlen.
  apply Array_ext.
  - rewrite swapArgs_len; by rewrite ?Hlen.
  - intros j _. rewrite swapArgs_get by (by rewrite Hlen).
    rewrite !swapArgs_get by done.
    repeat case_decide; congruence.
Qed.

Lemma swapArgs_flip value i1 i2 :
  0 ≤ i1 < len value → 0 ≤ i2 < len value →
  after (swapArgs (after (swapArgs value i1 i2)) i2 i1) = value.
Proof.
  intros H1 H2.
  pose proof (swapArgs_len value i1 i2 H1 H2) as Hlen.
  apply Array_ext.
  - rewrite swapArgs_len; by rewrite ?Hlen.
  - intros j _. rewrite swapArgs_get by (by rewrite Hlen).
    rewrite !swapArgs_get by done.
    repeat case_decide; congruence.
Qed.

Lemma deleteArg_in_place value i : in_place (deleteArg value i).
Proof. done. Qed.



Lemma add_concat value initialVal :
  click value (add (ArrayInput value initialVal))
  = {| after := value; updated := Some (Array_concat value initialVal) |}.
Proof. done. Qed.
End ArrayInputFacts.

Section ArrayInputEdits.
Import JS Forms.
Implicit Types (value : list jsval) (initialVal val : jsval) (i j : Z).




(** The two move buttons of a rendered row: inert at the respective end of
    the array, otherwise a swap with the neighbour that keeps the length
    and every other index. *)
Lemma move_up_row value initialVal (n : nat) row :
  rows (ArrayInput value initialVal) !! n = Some row →
  let i := Z.of_nat n in
  let e := click value (moveUp row) in
  if decide (i = 0) then e = inert value
  else in_place e
       ∧ len (after e) = len value
       ∧ Array_get (after e) (i - 1) = Array_get value i
       ∧ Array_get (after e) i = Array_get value (i - 1)
       ∧ (∀ j, j ≠ i → j ≠ i - 1 → Array_get (after e) j = Array_get value j).
Proof.
  intros (Hn & _ & _ & Hup & _)%ArrayInput_row. unfold click. rewrite Hup.
  simpl disabled. simpl onClick. case_decide as Hi.
  { by rewrite bool_decide_eq_true_2. }
  rewrite bool_decide_eq_false_2 by done.
  split; [done|]. split; [apply swapArgs_len; lia|].
  repeat split; intros; rewrite swapArgs_get by lia;
    repeat case_decide; (done || lia).
Qed.

Lemma move_down_row value initialVal (n : nat) row :
  rows (ArrayInput value initialVal) !! n = Some row →
  let i := Z.of_nat n in
  let e := click value (moveDown row) in
  if decide (i = len value - 1) then e = inert value
  else in_place e
       ∧ len (after e) = len value
       ∧ Array_get (after e) (i + 1) = Array_get value i
       ∧ Array_get (after e) i = Array_get value (i + 1)
       ∧ (∀ j, j ≠ i → j ≠ i + 1 → Array_get (after e) j = Array_get value j).
Proof.
  intros (Hn & _ & _ & _ & Hdown & _)%ArrayInput_row. unfold click.
  rewrite Hdown. simpl disabled. simpl onClick. case_decide as Hi.
  { by rewrite bool_decide_eq_true_2. }
  rewrite bool_decide_eq_false_2 by done.
  split; [done|]. split; [apply swapArgs_len; lia|].
  repeat split; intros; rewrite swapArgs_get by lia;
    repeat case_decide; (done || lia).
Qed.
End ArrayInputEdits.

Section ArrayInputClaims.
Import JS Forms.
Implicit Types (value : list jsval) (initialVal val : jsval) (i j : Z).



(** What Add does to the length in general: one more for a default that
    is not an array, and as many more as the default has items when it is
    one. *)
Lemma add_length value initialVal out :
  updated (click value (add (ArrayInput value initialVal))) = Some out →
  len out = len value + match initialVal with
                        | JArray xs => len xs
                        | _ => 1
                        end.
Proof.
  rewrite add_concat. simpl. intros [= <-].
  destruct initialVal; simpl; by rewrite len_app.
Qed.




(** C2: swapping the items at [i] and [i + 1] twice gives back the
    original array, through [swapArgs] itself and through the buttons
    (move-down of row [i] twice, or move-down of row [i] and then move-up
    of row [i + 1]); move-up of the first row and move-down of the last
    row are disabled, a click on them writes nothing and calls nothing. *)
Theorem swap_adjacent_twice_and_ends value initialVal (n : nat) row :
  rows (ArrayInput value initialVal) !! n = Some row →
  let i := Z.of_nat n in
  (i = 0 → click value (moveUp row) = inert value)
  ∧ (i = len value - 1 → click value (moveDown row) = inert value)
  ∧ (i + 1 < len value →
     let value1 := after (swapArgs value i (i + 1)) in
     click value (moveDown row) = {| after := value1; updated := Some value1 |}
     ∧ after (swapArgs value1 i (i + 1)) = value
     ∧ (∀ row1, rows (ArrayInput value1 initialVal) !! n = Some row1 →
                click value1 (moveDown row1)
                = {| after := value; updated := Some value |})
     ∧ (∀ row2, rows (ArrayInput value1 initialVal) !! S n = Some row2 →
                click value1 (moveUp row2)
                = {| after := value; updated := Some value |})).
Proof.
  intros Hrow i.
  pose proof (move_up_row _ _ _ _ Hrow) as Hup.
  pose proof (move_down_row _ _ _ _ Hrow) as Hdown.
  apply ArrayInput_row in Hrow as (Hn & _ & _ & _ & Hmd & _).
  fold i in Hup, Hdown, Hn, Hmd. simpl in Hup, Hdown.
  split; [intros Hi; by rewrite decide_True in Hup|].
  split; [intros Hi; by rewrite decide_True in Hdown|].
  intros Hi value1.
  assert (len value1 = len value) as Hlen by (apply swapArgs_len; lia).
  assert (after (swapArgs value1 i (i + 1)) = value) as Hback
    by (apply swapArgs_involutive; lia).
  assert (after (swapArgs value1 (i + 1) i) = value) as Hflip
    by (apply swapArgs_flip; lia).
  split; [|split; [done|split]].
  - unfold click. rewrite Hmd. simpl disabled.
    by rewrite bool_decide_eq_false_2 by lia.
  - intros row1 (_ & _ & _ & _ & Hmd1 & _)%ArrayInput_row. fold i in Hmd1.
    unfold click. rewrite Hmd1. simpl disabled.
    rewrite bool_decide_eq_false_2 by lia. simpl onClick.
    unfold swapArgs in Hback |- *. simpl in Hback |- *. by rewrite Hback.
  - intros row2 (_ & _ & _ & Hmu2 & _)%ArrayInput_row.
    replace (Z.of_nat (S n)) with (i + 1) in Hmu2 by lia.
    replace (i + 1 - 1) with i in Hmu2 by lia.
    unfold click. rewrite Hmu2. simpl disabled.
    rewrite bool_decide_eq_false_2 by lia. simpl onClick.
    unfold swapArgs in Hflip |- *. simpl in Hflip |- *. by rewrite Hflip.
Qed.

Lemma swap_adjacent_twice_and_ends_witness :
  ∃ row,
    rows (ArrayInput [JNumber 10; JNumber 20; JNumber 30] JNull) !! 1%nat
    = Some row
    ∧ click [JNumber 10; JNumber 20; JNumber 30] (moveDown row)
      = {| after := [JNumber 10; JNumber 30; JNumber 20];
           updated := Some [JNumber 10; JNumber 30; JNumber 20] |}
    ∧ after (swapArgs [JNumber 10; JNumber 30; JNumber 20] 1 2)
      = [JNumber 10; JNumber 20; JNumber 30].
Proof.
  eexists. split; [reflexivity|].
  pose proof (swap_adjacent_twice_and_ends
                [JNumber 10; JNumber 20; JNumber 30] JNull 1 _ eq_refl)
    as (_ & _ & Hswap).
  destruct Hswap as (Hdown & Hback & _); [reflexivity|].
  split; [exact Hdown | exact Hback].
Defined.

End ArrayInputClaims.

(** ** [ArrayDisplay]: the collapse heuristic *)

Section ArrayDisplayClaims.
Import JS Display.

Lemma ArrayDisplay_length value : ArrayDisplay value = bool_decide (len value > 4).
Proof.
  unfold ArrayDisplay. simpl truthy.
  destruct (String.eqb _ _); simpl; [|done].
  repeat case_bool_decide; (done || lia).
Qed.

(** C4: the initial collapse state is the heuristic, collapsed exactly
    when the array is not empty and either its first item is an object
    and it has more than 7 items, or it has more than 4 items; so five
    items start collapsed, four items start expanded, and a single item,
    object or not, starts expanded. *)
Theorem ArrayDisplay_collapse_heuristic (value : list jsval) :
  (ArrayDisplay value = true ↔
     value ≠ [] ∧ ((typeof (Array_get value 0) = "object" ∧ len value > 7)
                   ∨ len value > 4))
  ∧ (len value = 5 → ArrayDisplay value = true)
  ∧ (len value = 4 → ArrayDisplay value = false)
  ∧ (len value = 1 → ArrayDisplay value = false).
Proof.
  rewrite ArrayDisplay_length. split; [|split; [|split]].
  - rewrite bool_decide_eq_true. split.
    + intros Hlen. split; [|by right]. intros ->. unfold len in Hlen.
      simpl in Hlen. lia.
    + intros [_ [[_ Hlen]|Hlen]]; lia.
  - intros ->. done.
  - intros ->. done.
  - intros ->. done.
Qed.

Lemma ArrayDisplay_collapse_heuristic_witness :
  ArrayDisplay [JNumber 1; JNumber 2; JNumber 3; JNumber 4; JNumber 5] = true
  ∧ ArrayDisplay [JString "a"; JString "b"; JString "c"; JString "d"] = false
  ∧ ArrayDisplay [JObject [("x", JNumber 0)]] = false.
Proof.
  split; [|split].
  - destruct (ArrayDisplay_collapse_heuristic
                [JNumber 1; JNumber 2; JNumber 3; JNumber 4; JNumber 5])
      as (_ & H5 & _ & _).
    apply H5. reflexivity.
  - destruct (ArrayDisplay_collapse_heuristic
                [JString "a"; JString "b"; JString "c"; JString "d"])
      as (_ & _ & H4 & _).
    apply H4. reflexivity.
  - destruct (ArrayDisplay_collapse_heuristic [JObject [("x", JNumber 0)]])
      as (_ & _ & _ & H1).
    apply H1. reflexivity.
Defined.
End ArrayDisplayClaims.

(** ** [OptionalInput]: the presence switch *)

Section OptionalInputClaims.
Import JS Forms.

(** C7: the switch of an absent value passes the caller's default to
    [update], the switch of a present value passes [undefined] whatever
    the value was, so that switching a present value off and on again ends
    with the caller's default; the switch is drawn checked exactly when
    the value is not [undefined]. *)
Theorem OptionalInput_toggle (value initialVal : jsval) :
  checked (OptionalInput value initialVal) = negb (is_undefined value)
  ∧ (value = JUndefined → onChange (OptionalInput value initialVal) = initialVal)
  ∧ (value ≠ JUndefined →
     let off := onChange (OptionalInput value initialVal) in
     let on := onChange (OptionalInput off initialVal) in
     off = JUndefined
     ∧ inner (OptionalInput off initialVal) = None
     ∧ on = initialVal).
Proof.
  split; [done|]. split.
  - by intros ->.
  - intros Hv. by destruct value.
Qed.

Lemma OptionalInput_toggle_witness :
  onChange (OptionalInput (JNumber 1) (JNumber 0)) = JUndefined
  ∧ onChange (OptionalInput
                (onChange (OptionalInput (JNumber 1) (JNumber 0))) (JNumber 0))
    = JNumber 0.
Proof.
  pose proof (OptionalInput_toggle (JNumber 1) (JNumber 0)) as (_ & _ & H).
  destruct H as (Hoff & _ & Hon); [discriminate|].
  split; [exact Hoff | exact Hon].
Defined.
End OptionalInputClaims.

(** ** [MethodForm]: submitting the staged value *)

Section MethodFormClaims.
Import Forms.
Context {T : Type} (initialize : () → T).
Implicit Types (st : FormState (T := T)) (v : T).

Lemma run_app st evs1 evs2 :
  run initialize st (evs1 ++ evs2)
  = run initialize (run initialize st evs1) evs2.
Proof. unfold run. apply fold_left_app. Qed.

(** A rejected [submit] is the one settlement after which the handler
    neither notifies nor resets. *)
Lemma MethodForm_rejected st k v :
  inFlight st !! k = Some v →
  MethodForm initialize st (Settle k Rejected)
  = {| staged := staged st; inFlight := delete k (inFlight st);
       toasts := toasts st |}.
Proof. intros Hk. simpl. by rewrite Hk. Qed.

(** C8: a click on Submit calls [submit] with the staged value as it is;
    when that call completes with a response, an error response adds its
    message to the notifications and a success response adds nothing, and
    in both cases the staged value becomes a new value from the factory;
    a second click while the first call has not completed is accepted and
    starts a second call. *)
Theorem MethodForm_submit st :
  MethodForm initialize st ClickSubmit
  = {| staged := staged st; inFlight := inFlight st ++ [staged st];
       toasts := toasts st |}
  ∧ (∀ k v res,
       inFlight st !! k = Some v →
       MethodForm initialize st (Settle k (Fulfilled res))
       = {| staged := initialize ();
            inFlight := delete k (inFlight st);
            toasts := match res with
                      | Error error => toasts st ++ [error]
                      | Success => toasts st
                      end |})
  ∧ inFlight (run initialize st [ClickSubmit; ClickSubmit])
    = inFlight st ++ [staged st; staged st]
  ∧ (∀ v error,
       run initialize (mount initialize)
           [Edit v; ClickSubmit; Settle 0 (Fulfilled (Error error))]
       = {| staged := initialize (); inFlight := []; toasts := [error] |}).
Proof.
  split; [done|]. split; [|split].
  - intros k v res Hk. simpl. rewrite Hk. by destruct res.
  - simpl. by rewrite <- app_assoc.
  - done.
Qed.
End MethodFormClaims.

Lemma MethodForm_submit_witness :
  Forms.MethodForm (λ _, 0)
    {| Forms.staged := 2; Forms.inFlight := [2]; Forms.toasts := [] |}
    (Forms.Settle 0 (Forms.Fulfilled (Forms.Error "already voted")))
  = {| Forms.staged := 0; Forms.inFlight := []; Forms.toasts := ["already voted"] |}.
Proof.
  destruct (MethodForm_submit (λ _, 0)
              {| Forms.staged := 2; Forms.inFlight := [2]; Forms.toasts := [] |})
    as (_ & Hsettle & _).
  apply (Hsettle 0%nat 2 (Forms.Error "already voted")). reflexivity.
Defined.

(** ** [UserIdDisplay]: the reference display *)

Section UserIdDisplayClaims.
Import Display.
Variable getUserDisplayName : Base.UserData → string.
Implicit Types (st : UserIdState) (ev : UserIdEvent).

Lemma step_brings_nothing st ev :
  userData st = None → brings_nothing st ev = true → step st ev = (st, []).
Proof.
  intros Hud Hev. destruct st as [value c ud]. simpl in Hud. subst ud.
  destruct ev as [value'|[[ud|]|]|]; simpl in *; try done.
  apply String.eqb_eq in Hev as ->. by rewrite String.eqb_refl.
Qed.

(** As long as no descriptor arrives the component stays as it was
    mounted and asks for nothing more. *)
Lemma steps_bring_nothing st evs :
  userData st = None →
  forallb (brings_nothing st) evs = true →
  steps st evs = (st, []).
Proof.
  intros Hud. unfold steps. induction evs as [|ev evs IH]; [done|].
  simpl. intros [Hev Hevs]%andb_prop.
  rewrite step_brings_nothing by done. simpl. by apply IH.
Qed.

(** C9: on mount the lookup is started once and the bare identifier is
    shown with the user icon; a lookup that resolves to [undefined] or is
    rejected changes nothing and starts nothing, however many such events
    follow; a lookup that resolves to a descriptor turns the node into a
    panel that starts collapsed, and a click on its toggle shows the two
    fields [UserId] and [type] of the descriptor. *)
Theorem UserIdDisplay_lookup (value : string) :
  let st0 := (mount value).1 in
  (mount value).2 = [value]
  ∧ UserIdDisplay getUserDisplayName st0 = Identifier UserCircleIcon value
  ∧ step st0 (LookupSettled (Resolved None)) = (st0, [])
  ∧ step st0 (LookupSettled Failed) = (st0, [])
  ∧ (∀ evs, forallb (brings_nothing st0) evs = true →
            steps st0 evs = (st0, []))
  ∧ (∀ ud,
       let st1 := (step st0 (LookupSettled (Resolved (Some ud)))).1 in
       let st2 := (step st1 ClickToggle).1 in
       isCollapsed st1 = true
       ∧ UserIdDisplay getUserDisplayName st1
         = Panel UserCircleIcon (getUserDisplayName ud) PlusSmIcon []
       ∧ UserIdDisplay getUserDisplayName st2
         = Panel UserCircleIcon (getUserDisplayName ud) MinusSmIcon
                 [("UserId", Base.id ud); ("type", Base.type ud)]).
Proof.
  repeat split; try done.
  intros evs Hevs. by apply steps_bring_nothing.
Qed.
End UserIdDisplayClaims.

Lemma UserIdDisplay_lookup_witness :
  Display.steps (Display.mount "u1").1
    [Display.LookupSettled Display.Failed;
     Display.LookupSettled (Display.Resolved None);
     Display.Render "u1"]
  = ((Display.mount "u1").1, []).
Proof.
  destruct (UserIdDisplay_lookup (λ ud, Base.id ud) "u1")
    as (_ & _ & _ & _ & Hquiet & _).
  apply Hquiet. reflexivity.
Defined.

(** ** Objects: property keys, lookup and [Object.entries] *)

Section ObjectFacts.
Import JS.
Implicit Types (o : jsobject) (k : string) (v : jsval) (e : string * jsval).

Lemma typeof_number v : typeof v = "number" ↔ ∃ n, v = JNumber n.
Proof.
  split; [|by intros [n ->]]. destruct v; try done. by exists n.
Qed.

Lemma to_int_proper z : Z.to_int z ≠ Pos Nil ∧ Z.to_int z ≠ Neg Nil.
Proof.
  destruct z as [|p|p]; simpl; split; try done;
    intros [= Hp]; by apply Unsigned.to_uint_nonnil in Hp.
Qed.

Lemma key_number_number_to_string z : key_number (number_to_string z) = Some z.
Proof.
  unfold key_number, number_to_string at 1.
  destruct (to_int_proper z) as [Hpos Hneg].
  rewrite NilZero.isi by done. rewrite DecimalZ.of_to.
  by rewrite String.eqb_refl.
Qed.

Lemma number_to_string_inj z1 z2 :
  number_to_string z1 = number_to_string z2 → z1 = z2.
Proof.
  intros Heq. pose proof (key_number_number_to_string z1) as H1.
  rewrite Heq, key_number_number_to_string in H1. by injection H1.
Qed.

Lemma is_numeric_name_number_to_string z :
  is_numeric_name (number_to_string z) = true.
Proof. unfold is_numeric_name. by rewrite key_number_number_to_string. Qed.

Lemma is_array_index_numeric k : is_array_index k → is_numeric_name k = true.
Proof.
  unfold is_array_index, array_index, is_numeric_name.
  by destruct (key_number k).
Qed.

Lemma obj_get_set o k v k' :
  obj_get (obj_set o k v) k' = if decide (k = k') then v else obj_get o k'.
Proof.
  induction o as [|[k0 v0] o IH]; simpl.
  - destruct (String.eqb_spec k k'); by case_decide.
  - destruct (String.eqb_spec k0 k) as [->|Hk0]; simpl.
    + destruct (String.eqb_spec k k'); by case_decide.
    + rewrite IH. destruct (String.eqb_spec k0 k'); [|done].
      subst k0. by rewrite decide_False by done.
Qed.

Lemma elem_of_obj_set o k v e : e ∈ obj_set o k v → e ∈ o ∨ e = (k, v).
Proof.
  induction o as [|[k0 v0] o IH]; simpl.
  - intros ->%list_elem_of_singleton. by right.
  - destruct (String.eqb_spec k0 k) as [->|Hk0].
    + intros [->|He]%elem_of_cons; [by right|]. left. by right.
    + intros [->|He]%elem_of_cons; [left; by left|].
      destruct (IH He) as [?|?]; [left; by right|by right].
Qed.

Lemma obj_set_fresh o k v : k ∉ o.*1 → obj_set o k v = o ++ [(k, v)].
Proof.
  induction o as [|[k0 v0] o IH]; simpl; [done|].
  intros Hk. apply not_elem_of_cons in Hk as [Hk0 Hk].
  destruct (String.eqb_spec k0 k) as [->|_]; [done|]. by rewrite IH.
Qed.

(** Overwriting a property does not change what a filter lets through
    when neither the old nor the new value passes it. *)
Lemma filter_obj_set_other (P : string * jsval → Prop)
    `{!∀ e, Decision (P e)} o k v :
  ¬ P (k, v) → (∀ v', (k, v') ∈ o → ¬ P (k, v')) →
  filter P (obj_set o k v) = filter P o.
Proof.
  intros Hnew. induction o as [|[k0 v0] o IH]; simpl; intros Hold.
  - by rewrite filter_cons_False.
  - destruct (String.eqb_spec k0 k) as [->|Hk0].
    + rewrite !filter_cons_False; [done | apply Hold; by left | done].
    + rewrite !filter_cons, IH; [done|]. intros v' Hv'. apply Hold. by right.
Qed.

Lemma obj_get_elem_of o k v : NoDup o.*1 → (k, v) ∈ o → obj_get o k = v.
Proof.
  induction o as [|[k0 v0] o IH]; simpl; [by intros _ ?%elem_of_nil|].
  intros [Hk0 Hnd]%NoDup_cons [[= -> ->]|Hin]%elem_of_cons.
  - by rewrite String.eqb_refl.
  - destruct (String.eqb_spec k0 k) as [->|_]; [|by apply IH].
    destruct Hk0. apply list_elem_of_fmap. by exists (k, v).
Qed.

Lemma Object_entries_Permutation o : Object_entries o ≡ₚ o.
Proof.
  unfold Object_entries. rewrite merge_sort_Permutation.
  apply filter_app_complement.
Qed.

Lemma elem_of_Object_entries o e : e ∈ Object_entries o ↔ e ∈ o.
Proof. by rewrite Object_entries_Permutation. Qed.

(** When no array-index key holds a value that passes the filter, the
    entries that pass it come in creation order. *)
Lemma filter_Object_entries (P : string * jsval → Prop)
    `{!∀ e, Decision (P e)} o :
  (∀ e, e ∈ o → P e → ¬ is_array_index e.1) →
  filter P (Object_entries o) = filter P o.
Proof.
  intros HP. unfold Object_entries. rewrite filter_app.
  assert (filter P (merge_sort index_le (filter (λ e, is_array_index e.1) o))
          = []) as ->.
  { apply elem_of_nil_inv. intros e.
    rewrite list_elem_of_filter, merge_sort_Permutation, list_elem_of_filter.
    intros (HPe & Hidx & He). by apply (HP e). }
  simpl. rewrite list_filter_filter. induction o as [|e o IH]; [done|].
  rewrite !filter_cons.
  assert (∀ e', e' ∈ o → P e' → ¬ is_array_index e'.1) as HP'
    by (intros e' He'; apply HP; by right).
  rewrite IH by done.
  destruct (decide (P e)) as [HPe|HPe].
  - rewrite decide_True; [done|]. split; [done|]. apply HP; [by left|done].
  - rewrite decide_False; [done|]. by intros [? _].
Qed.
End ObjectFacts.

(** ** Symbol tables built from an enum declaration *)

Section EnumObjectFacts.
Import JS TS.
Implicit Types (members ms : list (string * Z)) (m : string * Z) (k : Z).

Lemma enum_object_snoc ms m :
  enum_object (ms ++ [m])
  = obj_set (obj_set (enum_object ms) m.1 (JNumber m.2))
            (number_to_string m.2) (JString m.1).
Proof. unfold enum_object. by rewrite fold_left_app. Qed.

Lemma alias_snoc ms m k :
  alias (ms ++ [m]) k = if decide (m.2 = k) then JString m.1 else alias ms k.
Proof. unfold alias. by rewrite fold_left_app. Qed.

Lemma wf_enum_snoc ms m :
  wf_enum (ms ++ [m]) →
  wf_enum ms ∧ (m.1 ∉ ms.*1) ∧ is_numeric_name m.1 = false.
Proof.
  unfold wf_enum. rewrite fmap_app, NoDup_app, Forall_app, Forall_singleton.
  intros [(Hnd & Hfresh & _) [Hnames Hm]]. repeat split; [done..| |done].
  intros Hin. apply (Hfresh _ Hin). simpl. by left.
Qed.

(** Every property of the table is a member with its value or a reverse
    alias, a numeral that maps to a string. *)
Lemma enum_object_entry ms e :
  e ∈ enum_object ms →
  (∃ m, m ∈ ms ∧ e = (m.1, JNumber m.2))
  ∨ (is_numeric_name e.1 = true ∧ ∃ s, e.2 = JString s).
Proof.
  revert e. induction ms as [|m ms IH] using rev_ind; intros e.
  { by intros ?%elem_of_nil. }
  rewrite enum_object_snoc.
  intros [[He| ->]%elem_of_obj_set| ->]%elem_of_obj_set.
  - destruct (IH e He) as [(m' & Hm' & ->)|?]; [left|by right].
    exists m'. split; [|done]. apply elem_of_app. by left.
  - left. exists m. split; [|done]. apply elem_of_app. right. by left.
  - right. simpl. split; [apply is_numeric_name_number_to_string|by eexists].
Qed.

Lemma enum_object_name_fresh ms m :
  wf_enum (ms ++ [m]) → m.1 ∉ (enum_object ms).*1.
Proof.
  intros (_ & Hfresh & Hname)%wf_enum_snoc
         (e & He1 & [(m' & Hm' & ->)|[Hnum _]]%enum_object_entry)%list_elem_of_fmap.
  - apply Hfresh. rewrite He1. apply list_elem_of_fmap. by exists m'.
  - congruence.
Qed.

(** The numeric-valued properties of the table are the members, in the
    order of the declaration. *)
Lemma enum_object_numeric ms :
  wf_enum ms →
  filter (λ e, typeof e.2 = "number") (enum_object ms)
  = (λ m, (m.1, JNumber m.2)) <$> ms.
Proof.
  induction ms as [|m ms IH] using rev_ind; [done|]. intros Hwf.
  pose proof (enum_object_name_fresh _ _ Hwf) as Hfresh.
  pose proof (wf_enum_snoc _ _ Hwf) as (Hwf' & _ & Hname).
  rewrite enum_object_snoc, (obj_set_fresh (enum_object ms) m.1) by done.
  rewrite filter_obj_set_other.
  - rewrite filter_app, IH, fmap_app by done.
    by rewrite filter_cons_True, filter_nil by done.
  - done.
  - intros v' [Hin|Hin%list_elem_of_singleton]%elem_of_app; simpl.
    + apply enum_object_entry in Hin as [(m' & Hm' & [= Hk ->])|[_ [s Hs]]];
        [|simpl in Hs; by rewrite Hs].
      assert (is_numeric_name m'.1 = false) as Hm'name.
      { destruct Hwf' as [_ Hall]. rewrite Forall_forall in Hall.
        by apply Hall. }
      rewrite <- Hk, is_numeric_name_number_to_string in Hm'name. done.
    + injection Hin as Hk ->.
      rewrite <- Hk, is_numeric_name_number_to_string in Hname. done.
Qed.

Lemma enum_object_numeric_entries ms :
  wf_enum ms →
  filter (λ e, typeof e.2 = "number") (Object_entries (enum_object ms))
  = (λ m, (m.1, JNumber m.2)) <$> ms.
Proof.
  intros Hwf. rewrite filter_Object_entries; [by apply enum_object_numeric|].
  intros e [(m & Hm & ->)|[_ [s Hs]]]%enum_object_entry Hnum Hidx.
  - apply is_array_index_numeric in Hidx. simpl in Hidx.
    destruct Hwf as [_ Hall]. rewrite Forall_forall in Hall.
    rewrite (Hall m Hm) in Hidx. done.
  - by rewrite Hs in Hnum.
Qed.

(** Reading the table at the numeral of [k] finds the reverse alias. *)
Lemma enum_object_alias ms k :
  wf_enum ms → obj_get (enum_object ms) (number_to_string k) = alias ms k.
Proof.
  induction ms as [|m ms IH] using rev_ind; [done|].
  intros (Hwf & _ & Hname)%wf_enum_snoc.
  rewrite enum_object_snoc, alias_snoc, !obj_get_set, IH by done.
  destruct (decide (m.2 = k)) as [->|Hk].
  - by rewrite decide_True.
  - rewrite decide_False by (intros ?%number_to_string_inj; done).
    rewrite decide_False; [done|]. intros Heq.
    by rewrite Heq, is_numeric_name_number_to_string in Hname.
Qed.

Lemma alias_cases ms k :
  (alias ms k = JUndefined ∧ ∀ m, m ∈ ms → m.2 ≠ k)
  ∨ (∃ m, m ∈ ms ∧ m.2 = k ∧ alias ms k = JString m.1).
Proof.
  induction ms as [|m ms IH] using rev_ind.
  { left. split; [done|]. by intros m ?%elem_of_nil. }
  rewrite alias_snoc. destruct (decide (m.2 = k)) as [Hk|Hk].
  - right. exists m. split; [|done]. apply elem_of_app. right. by left.
  - destruct IH as [[Hu Hall]|(m' & Hm' & Hk' & Ha)].
    + left. split; [done|].
      intros m' [?|Hm'%list_elem_of_singleton]%elem_of_app;
        [by apply Hall|by subst m'].
    + right. exists m'. split; [|done]. apply elem_of_app. by left.
Qed.

(** A list of integers that is not [start, start + 1, ...] differs from it
    at some position. *)
Lemma not_seqZ_position (l : list Z) start :
  l ≠ seqZ start (Z.of_nat (length l)) →
  ∃ (i : nat) v, l !! i = Some v ∧ v ≠ start + Z.of_nat i.
Proof.
  revert start. induction l as [|x l IH]; intros start; [done|].
  simpl length. rewrite Nat2Z.inj_succ, seqZ_cons by lia.
  replace (Z.pred (Z.succ (Z.of_nat (length l)))) with (Z.of_nat (length l))
    by lia.
  intros Hne. destruct (decide (x = start)) as [->|Hx].
  - destruct (IH (Z.succ start)) as (i & v & Hi & Hv); [congruence|].
    exists (S i), v. split; [done|lia].
  - exists 0%nat, x. split; [done|lia].
Qed.
End EnumObjectFacts.

(** ** [EnumDisplay] and [EnumInput] *)

Section EnumClaims.
Import JS TS Forms Display.
Implicit Types (enum enumType : jsobject) (k value : Z).
Implicit Types (ms members : list (string * Z)) (m : string * Z).

Lemma numeric_entry enum e :
  e ∈ filter (λ e, typeof e.2 = "number") (Object_entries enum)
  ↔ e ∈ enum ∧ ∃ n, e.2 = JNumber n.
Proof.
  rewrite list_elem_of_filter, elem_of_Object_entries, typeof_number. tauto.
Qed.

Lemma NoDup_fst_eq ms m m' :
  NoDup ms.*1 → m ∈ ms → m' ∈ ms → m.1 = m'.1 → m = m'.
Proof.
  induction ms as [|m0 ms IH]; [by intros _ ?%elem_of_nil|].
  rewrite fmap_cons. intros [Hm0 Hnd]%NoDup_cons.
  intros [->|Hm]%elem_of_cons [->|Hm']%elem_of_cons Heq; [done| | |by apply IH].
  - destruct Hm0. rewrite Heq. apply list_elem_of_fmap. by exists m'.
  - destruct Hm0. rewrite <- Heq. apply list_elem_of_fmap. by exists m.
Qed.

(** On a table built from a declaration, the display shows the name of
    the member declared at position [k]. *)
Lemma EnumDisplay_enum_object ms k m :
  wf_enum ms → 0 ≤ k → ms !! Z.to_nat k = Some m →
  EnumDisplay k (enum_object ms) = JString m.1.
Proof.
  intros Hwf Hk Hm. unfold EnumDisplay, labels.
  rewrite enum_object_numeric_entries by done.
  apply Array_get_Some; [done|]. by rewrite !list_lookup_fmap, Hm.
Qed.

(** ... and the button of the list box shows the reverse alias. *)
Lemma EnumInput_button_enum_object ms k :
  wf_enum ms → button (EnumInput k (enum_object ms)) = alias ms k.
Proof. intros Hwf. simpl. by apply enum_object_alias. Qed.

(** C5: the display of the value [k] is the label of the entry at
    position [k] among the numeric-valued entries of the symbol table,
    which are its properties with a number as value, string-valued ones
    left out; for [k] outside the positions of that list the display is
    [undefined], nothing is rendered and nothing fails. *)
Theorem EnumDisplay_label enum k :
  let numeric := filter (λ e, typeof e.2 = "number") (Object_entries enum) in
  (∀ e, e ∈ numeric ↔ e ∈ enum ∧ ∃ n, e.2 = JNumber n)
  ∧ (0 ≤ k < Z.of_nat (length numeric) →
     ∃ e, numeric !! Z.to_nat k = Some e ∧ EnumDisplay k enum = JString e.1)
  ∧ (¬ (0 ≤ k < Z.of_nat (length numeric)) → EnumDisplay k enum = JUndefined).
Proof.
  intros numeric. split; [apply numeric_entry|]. split.
  - intros Hk.
    destruct (lookup_lt_is_Some_2 numeric (Z.to_nat k)) as [e He]; [lia|].
    exists e. split; [done|]. apply Array_get_Some; [lia|].
    unfold labels. fold numeric. by rewrite list_lookup_fmap, He.
  - intros Hk. apply Array_get_outside. unfold len, labels. fold numeric.
    by rewrite length_fmap.
Qed.

Lemma EnumDisplay_label_witness :
  EnumDisplay 1 (enum_object [("Approve", 0); ("Reject", 1)]) = JString "Reject"
  ∧ EnumDisplay 2 (enum_object [("Approve", 0); ("Reject", 1)]) = JUndefined
  ∧ EnumDisplay (-1) (enum_object [("Approve", 0); ("Reject", 1)]) = JUndefined.
Proof.
  split; [|split].
  - destruct (EnumDisplay_label (enum_object [("Approve", 0); ("Reject", 1)]) 1)
      as (_ & Hin & _).
    destruct Hin as (e & He & ->); [by vm_compute|].
    vm_compute in He. by injection He as <-.
  - destruct (EnumDisplay_label (enum_object [("Approve", 0); ("Reject", 1)]) 2)
      as (_ & _ & Hout).
    apply Hout. vm_compute. by intros [_ ?].
  - destruct (EnumDisplay_label (enum_object [("Approve", 0); ("Reject", 1)]) (-1))
      as (_ & _ & Hout).
    apply Hout. vm_compute. by intros [? _].
Defined.

(** C6: the options of the list box are the properties of the symbol
    table whose value is a number, no more and no fewer, string-valued
    properties left out; picking an option calls [update] with its number,
    which is the value the table holds under the label of the option. *)
Theorem EnumInput_options value enumType :
  let opts := options (EnumInput value enumType) in
  (∀ label v,
     (∃ o, o ∈ opts ∧ text o = label ∧ optionValue o = v)
     ↔ (label, v) ∈ enumType ∧ typeof v = "number")
  ∧ length opts = length (filter (λ e, typeof e.2 = "number") enumType)
  ∧ (∀ o, o ∈ opts →
       ∃ n, select o = JNumber n ∧ key o = JNumber n
            ∧ (text o, JNumber n) ∈ enumType)
  ∧ (NoDup enumType.*1 →
     ∀ o, o ∈ opts → select o = obj_get enumType (text o)).
Proof.
  intros opts.
  assert (∀ o, o ∈ opts ↔
            ∃ e, o = {| key := e.2; optionValue := e.2; text := e.1 |}
                 ∧ e ∈ enumType ∧ ∃ n, e.2 = JNumber n) as Hopts.
  { intros o. unfold opts. simpl. rewrite list_elem_of_fmap.
    by setoid_rewrite numeric_entry. }
  split; [|split; [|split]].
  - intros label v. split.
    + intros (o & (e & -> & He & n & Hn)%Hopts & <- & <-). simpl.
      destruct e as [l x]. simpl in *. subst x. done.
    + intros [Hin (n & ->)%typeof_number].
      exists {| key := JNumber n; optionValue := JNumber n; text := label |}.
      split; [|done]. apply Hopts. exists (label, JNumber n). eauto.
  - unfold opts. simpl. rewrite length_fmap. apply Permutation_length.
    by rewrite Object_entries_Permutation.
  - intros o (e & -> & He & n & Hn)%Hopts. exists n. unfold select. simpl.
    destruct e as [l x]. simpl in *. by subst x.
  - intros Hnd o (e & -> & He & _)%Hopts. unfold select. simpl.
    destruct e as [l x]. symmetry. by apply obj_get_elem_of.
Qed.

Lemma EnumInput_options_witness :
  Forall (λ o, select o
               = obj_get (enum_object [("Approve", 0); ("Reject", 1)]) (text o))
         (options (EnumInput 0 (enum_object [("Approve", 0); ("Reject", 1)]))).
Proof.
  destruct (EnumInput_options 0 (enum_object [("Approve", 0); ("Reject", 1)]))
    as (_ & _ & _ & Hsel).
  apply Forall_forall. apply Hsel. apply (bool_decide_unpack _). by vm_compute.
Defined.
End EnumClaims.

Section EnumLabelTwoWays.
Import JS TS Forms Display.
Implicit Types (ms members : list (string * Z)) (m : string * Z) (k : Z).

Lemma values_enum_object ms :
  wf_enum ms → values (enum_object ms) = JNumber <$> ms.*2.
Proof.
  intros Hwf. unfold values. rewrite enum_object_numeric_entries by done.
  rewrite <- !list_fmap_compose. done.
Qed.

(** With the values [0, 1, ...] in the order of the declaration, the
    reverse alias of [k] is the member at position [k]. *)
Lemma alias_seqZ ms k m :
  ms.*2 = seqZ 0 (Z.of_nat (length ms)) →
  0 ≤ k → ms !! Z.to_nat k = Some m →
  alias ms k = JString m.1.
Proof.
  intros Hseq Hk Hm.
  assert (∀ (j : nat) m', ms !! j = Some m' → m'.2 = Z.of_nat j) as Hpos.
  { intros j m' Hj.
    assert (ms.*2 !! j = Some m'.2) as Hj2 by (by rewrite list_lookup_fmap, Hj).
    rewrite Hseq in Hj2. apply lookup_seqZ in Hj2. lia. }
  destruct (alias_cases ms k) as [[_ Hnone]|(m' & Hm' & Hk' & ->)].
  - destruct (Hnone m); [by eapply list_elem_of_lookup_2|].
    rewrite (Hpos _ _ Hm). lia.
  - apply list_elem_of_lookup_1 in Hm' as [j Hj].
    pose proof (Hpos _ _ Hj) as Hj2.
    replace (Z.to_nat k) with j in Hm by lia. congruence.
Qed.

(** C10, for the symbol tables that carry the reverse aliases: on the
    table of an enum declaration whose values are [0, ..., n - 1] in the
    order of the declaration, the label the display shows and the label
    on the button of the editor are the same for every value in
    [0, n); on the table of a declaration with any other values they
    differ for some value in [0, n). *)
Theorem enum_label_display_vs_edit members :
  wf_enum members →
  let E := enum_object members in
  let n := Z.of_nat (length members) in
  values E = JNumber <$> members.*2
  ∧ (members.*2 = seqZ 0 n →
     ∀ k, 0 ≤ k < n → EnumDisplay k E = button (EnumInput k E))
  ∧ (members.*2 ≠ seqZ 0 n →
     ∃ k, 0 ≤ k < n ∧ EnumDisplay k E ≠ button (EnumInput k E)).
Proof.
  intros Hwf E n. split; [by apply values_enum_object|]. split.
  - intros Hseq k Hk.
    destruct (lookup_lt_is_Some_2 members (Z.to_nat k)) as [m Hm]; [lia|].
    unfold E. rewrite EnumInput_button_enum_object by done.
    rewrite (EnumDisplay_enum_object _ _ m) by (done || lia).
    symmetry. apply alias_seqZ; (done || lia).
  - intros Hseq.
    destruct (not_seqZ_position members.*2 0) as (i & v & Hi & Hv).
    { by rewrite length_fmap. }
    rewrite list_lookup_fmap in Hi.
    destruct (members !! i) as [m|] eqn:Hm; [|done].
    injection Hi as <-. apply lookup_lt_Some in Hm as Hlt.
    exists (Z.of_nat i). split; [lia|].
    unfold E. rewrite EnumInput_button_enum_object by done.
    rewrite (EnumDisplay_enum_object _ _ m) by (rewrite ?Nat2Z.id; done || lia).
    destruct (alias_cases members (Z.of_nat i))
      as [[-> _]|(m' & Hm' & Hk' & ->)]; [done|].
    intros [= Hname]. destruct Hwf as [Hnd _].
    assert (m = m') as <-; [|lia].
    apply (NoDup_fst_eq members); [done| |done..].
    by eapply list_elem_of_lookup_2.
Qed.

Lemma enum_label_display_vs_edit_witness :
  EnumDisplay 1 (enum_object [("Approve", 0); ("Reject", 1)])
  = button (EnumInput 1 (enum_object [("Approve", 0); ("Reject", 1)]))
  ∧ ∃ k, 0 ≤ k < 2
         ∧ EnumDisplay k (enum_object [("Good", 1); ("Evil", 2)])
           ≠ button (EnumInput k (enum_object [("Good", 1); ("Evil", 2)])).
Proof.
  split.
  - destruct (enum_label_display_vs_edit [("Approve", 0); ("Reject", 1)])
      as (_ & Hsame & _).
    { split; [apply (bool_decide_unpack _); by vm_compute|].
      repeat constructor. }
    apply Hsame; [reflexivity|]. simpl. lia.
  - destruct (enum_label_display_vs_edit [("Good", 1); ("Evil", 2)])
      as (_ & _ & Hdiffer).
    { split; [apply (bool_decide_unpack _); by vm_compute|].
      repeat constructor. }
    apply Hdiffer. discriminate.
Defined.

(** C10 as it stands, for every symbol table: a table that maps labels to
    the values [0, 1] and has no reverse aliases shows its first label in
    the display, and nothing on the button of the editor. *)
Lemma plain_table_display_vs_edit :
  ¬ (∀ (enum : jsobject) (n k : Z),
       values enum = JNumber <$> seqZ 0 n →
       0 ≤ k < n →
       EnumDisplay k enum = button (EnumInput k enum)).
Proof.
  intros Hall.
  specialize (Hall [("A", JNumber 0); ("B", JNumber 1)] 2 0 eq_refl).
  discriminate Hall. lia.
Qed.
End EnumLabelTwoWays.

(** ** [ArrayInput]: the handlers outside the rendered rows, and sequences
    of clicks *)

Section ArrayInputRuns.
Import JS Forms Editing.
Implicit Types (value front back : list jsval) (initialVal val a b : jsval).
Implicit Types (i j : Z) (n : nat) (ev : ArrayEvent) (evs : list ArrayEvent).

Lemma len_cons a value : len (a :: value) = 1 + len value.
Proof. unfold len. simpl length. lia. Qed.

(** What the disabled move-up of the first row and the disabled move-down
    of the last row keep from happening: [swapArgs] with the index [-1]
    overwrites the first item with [undefined], and with the index
    [value.length] it leaves [undefined] in the place of the last item and
    makes the array one longer. *)
Theorem swapArgs_past_the_ends value :
  value ≠ [] →
  after (swapArgs value 0 (-1)) = <[0%nat := JUndefined]> value
  ∧ after (swapArgs value (len value - 1) (len value))
    = <[Z.to_nat (len value - 1) := JUndefined]> value
      ++ [Array_get value (len value - 1)]
  ∧ in_place (swapArgs value 0 (-1))
  ∧ in_place (swapArgs value (len value - 1) (len value)).
Proof.
  intros Hne.
  assert (0 < len value) as Hlen.
  { destruct value; [done|]. rewrite len_cons. pose proof (len_nonneg value). lia. }
  split; [|split; [|done]].
  - simpl. rewrite (Array_get_outside value (-1)) by lia.
    rewrite (Array_set_inside value 0) by lia.
    unfold Array_set at 1. by rewrite bool_decide_eq_true_2 by lia.
  - simpl. rewrite (Array_get_outside value (len value)) by lia.
    rewrite (Array_set_inside value (len value - 1)) by lia.
    unfold Array_set. rewrite bool_decide_eq_false_2 by lia.
    assert (len (<[Z.to_nat (len value - 1) := JUndefined]> value) = len value)
      as Hlen' by (unfold len; by rewrite length_insert).
    rewrite Hlen'. rewrite bool_decide_eq_false_2 by lia.
    by replace (len value - len value) with 0 by lia.
Qed.

Lemma swapArgs_past_the_ends_witness :
  after (swapArgs [JNumber 1; JNumber 2] 0 (-1)) = [JUndefined; JNumber 2]
  ∧ after (swapArgs [JNumber 1; JNumber 2] 1 2)
    = [JNumber 1; JUndefined; JNumber 2].
Proof.
  destruct (swapArgs_past_the_ends [JNumber 1; JNumber 2]) as (H1 & H2 & _);
    [discriminate|].
  split; [exact H1 | exact H2].
Defined.

(** [deleteArg] outside the rows: at or past the end nothing is removed
    and [update] is still called; a negative index counts from the end, and
    one before the start removes the first item. *)
Theorem deleteArg_outside_rows value i :
  in_place (deleteArg value i)
  ∧ (len value ≤ i → after (deleteArg value i) = value)
  ∧ (- len value ≤ i < 0 →
     after (deleteArg value i) = delete (Z.to_nat (len value + i)) value)
  ∧ (i < - len value → after (deleteArg value i) = drop 1 value).
Proof.
  pose proof (len_nonneg value) as Hlen.
  split; [done|]. simpl. unfold Array_splice. split; [|split]; intros Hi.
  - rewrite bool_decide_eq_false_2 by lia.
    replace (Z.min i (len value)) with (len value) by lia.
    replace (Z.min (Z.max 1 0) (len value - len value)) with 0 by lia.
    rewrite Z.add_0_r. unfold len. rewrite Nat2Z.id. apply take_drop.
  - rewrite bool_decide_eq_true_2 by lia.
    replace (Z.max (len value + i) 0) with (len value + i) by lia.
    replace (Z.min (Z.max 1 0) (len value - (len value + i))) with 1 by lia.
    rewrite delete_take_drop.
    by replace (Z.to_nat (len value + i + 1))
      with (S (Z.to_nat (len value + i))) by lia.
  - rewrite bool_decide_eq_true_2 by lia.
    replace (Z.max (len value + i) 0) with 0 by lia.
    destruct value as [|a value]; [done|].
    rewrite len_cons in *. pose proof (len_nonneg value).
    by replace (Z.min (Z.max 1 0) (1 + len value - 0)) with 1 by lia.
Qed.

Lemma deleteArg_outside_rows_witness :
  after (deleteArg [JNumber 1; JNumber 2; JNumber 3] 5)
  = [JNumber 1; JNumber 2; JNumber 3]
  ∧ after (deleteArg [JNumber 1; JNumber 2; JNumber 3] (-1))
    = [JNumber 1; JNumber 2].
Proof.
  destruct (deleteArg_outside_rows [JNumber 1; JNumber 2; JNumber 3] 5)
    as (_ & Hpast & _).
  destruct (deleteArg_outside_rows [JNumber 1; JNumber 2; JNumber 3] (-1))
    as (_ & _ & Hneg & _).
  split; [apply Hpast; by vm_compute | apply Hneg; by vm_compute].
Defined.

Lemma on_row_rendered value initialVal n f :
  (n < length value)%nat →
  ∃ row, rows (ArrayInput value initialVal) !! n = Some row
         ∧ on_row value initialVal n f = f row.
Proof.
  intros Hn. unfold on_row.
  destruct (lookup_lt_is_Some_2 (rows (ArrayInput value initialVal)) n)
    as [row Hrow]; [by rewrite ArrayInput_rows_length|].
  exists row. by rewrite Hrow.
Qed.

Lemma on_row_missing value initialVal n f :
  (length value ≤ n)%nat → on_row value initialVal n f = inert value.
Proof.
  intros Hn. unfold on_row. rewrite lookup_ge_None_2; [done|].
  by rewrite ArrayInput_rows_length.
Qed.
End ArrayInputRuns.

Section ArrayInputMoves.
Import JS Forms Editing.
Implicit Types (value front back : list jsval) (initialVal val a b : jsval).
Implicit Types (i j : Z) (n : nat) (ev : ArrayEvent) (evs : list ArrayEvent).

Lemma Array_get_middle front a back :
  Array_get (front ++ a :: back) (len front) = a.
Proof.
  apply Array_get_Some; [apply len_nonneg|]. unfold len. rewrite Nat2Z.id.
  by apply list_lookup_middle.
Qed.

Lemma Array_set_middle front a back val :
  Array_set (front ++ a :: back) (len front) val = front ++ val :: back.
Proof.
  pose proof (len_nonneg front). pose proof (len_nonneg back).
  rewrite Array_set_inside by (rewrite len_app, len_cons; lia).
  unfold len. rewrite Nat2Z.id. by rewrite insert_app_r_alt, Nat.sub_diag by lia.
Qed.

Lemma len_snoc front a : len (front ++ [a]) = len front + 1.
Proof. by rewrite len_app. Qed.

(** A swap of two neighbours, spelled out on the list. *)
Lemma swapArgs_neighbours front a b back :
  after (swapArgs (front ++ a :: b :: back) (len front) (len front + 1))
  = front ++ b :: a :: back
  ∧ after (swapArgs (front ++ a :: b :: back) (len front + 1) (len front))
    = front ++ b :: a :: back.
Proof.
  assert (Array_get (front ++ a :: b :: back) (len front + 1) = b) as Hb.
  { rewrite <- (len_snoc front a), (cons_middle a), app_assoc.
    apply Array_get_middle. }
  split; simpl; rewrite Hb, Array_get_middle.
  - rewrite Array_set_middle.
    rewrite <- (len_snoc front b), (cons_middle b front), app_assoc.
    rewrite Array_set_middle. by rewrite <- app_assoc.
  - rewrite <- (len_snoc front a).
    rewrite (cons_middle a front), app_assoc, Array_set_middle.
    rewrite <- app_assoc. simpl. apply Array_set_middle.
Qed.

Lemma edits_cons value initialVal ev evs :
  edits value initialVal (ev :: evs)
  = edits (rendered_next (handle value initialVal ev)) initialVal evs.
Proof. done. Qed.

(** A click on a move button either changes nothing or exchanges two
    neighbours. *)
Lemma handle_move value initialVal ev :
  is_move ev = true →
  rendered_next (handle value initialVal ev) = value
  ∨ ∃ front a b back,
      value = front ++ a :: b :: back
      ∧ rendered_next (handle value initialVal ev) = front ++ b :: a :: back.
Proof.
  destruct ev as [n|n| | |]; try done; intros _; simpl.
  all: destruct (decide (n < length value)%nat) as [Hn|Hn];
    [|left; rewrite on_row_missing by lia; done].
  all: edestruct on_row_rendered as (row & Hrow & ->); [done|].
  all: apply ArrayInput_row in Hrow as (_ & _ & _ & Hup & Hdown & _).
  all: unfold click; rewrite ?Hup, ?Hdown; simpl disabled; simpl onClick.
  - clear Hup Hdown. case_bool_decide as Hfirst; [by left|]. right.
    destruct n as [|n]; [done|].
    destruct (lookup_lt_is_Some_2 value n) as [a Ha]; [lia|].
    destruct (lookup_lt_is_Some_2 value (S n)) as [b Hb]; [lia|].
    exists (take n value), a, b, (drop (S (S n)) value).
    assert (value = take n value ++ a :: b :: drop (S (S n)) value) as Hsplit.
    { rewrite <- (take_drop n value) at 1. f_equal.
      rewrite (drop_S _ a) by done. by rewrite (drop_S _ b) by done. }
    split; [done|]. rewrite Hsplit at 1.
    assert (Z.of_nat (S n) = len (take n value) + 1) as ->
      by (unfold len; rewrite length_take; lia).
    replace (len (take n value) + 1 - 1) with (len (take n value)) by lia.
    unfold rendered_next. simpl updated. simpl default.
    apply swapArgs_neighbours.
  - clear Hup Hdown. case_bool_decide as Hlast; [by left|]. right.
    unfold len in Hlast.
    destruct (lookup_lt_is_Some_2 value n) as [a Ha]; [lia|].
    destruct (lookup_lt_is_Some_2 value (S n)) as [b Hb]; [lia|].
    exists (take n value), a, b, (drop (S (S n)) value).
    assert (value = take n value ++ a :: b :: drop (S (S n)) value) as Hsplit.
    { rewrite <- (take_drop n value) at 1. f_equal.
      rewrite (drop_S _ a) by done. by rewrite (drop_S _ b) by done. }
    split; [done|]. rewrite Hsplit at 1.
    assert (Z.of_nat n = len (take n value)) as ->
      by (unfold len; rewrite length_take; lia).
    unfold rendered_next. simpl updated. simpl default.
    apply swapArgs_neighbours.
Qed.

(** Moving rows around never loses, duplicates or invents an item: after
    any sequence of clicks on move buttons (on any rows, the disabled and
    the missing ones included) the array is a rearrangement of the one the
    sequence started from, of the same length. *)
Theorem moves_rearrange value initialVal evs :
  forallb is_move evs = true →
  edits value initialVal evs ≡ₚ value
  ∧ len (edits value initialVal evs) = len value.
Proof.
  intros Hevs.
  assert (edits value initialVal evs ≡ₚ value) as Hperm.
  { revert value. induction evs as [|ev evs IH]; intros value; [done|].
    simpl in Hevs. apply andb_prop in Hevs as [Hev Hevs].
    rewrite edits_cons, IH by done.
    destruct (handle_move value initialVal ev Hev)
      as [->|(front & a & b & back & -> & ->)]; [done|].
    apply Permutation_app_head, perm_swap. }
  split; [done|]. unfold len. by rewrite Hperm.
Qed.

Lemma moves_rearrange_witness :
  edits [JNumber 1; JNumber 2; JNumber 3] JNull
        [MoveUp 0; MoveDown 0; MoveDown 2; MoveUp 7; MoveUp 2]
  ≡ₚ [JNumber 1; JNumber 2; JNumber 3].
Proof.
  apply (moves_rearrange [JNumber 1; JNumber 2; JNumber 3] JNull
           [MoveUp 0; MoveDown 0; MoveDown 2; MoveUp 7; MoveUp 2]).
  reflexivity.
Defined.

(** Moving and deleting rows never brings in an item that was not there:
    after any sequence of clicks on move and delete buttons the items of
    the array are among the items it started with, counted with
    multiplicity. *)
Theorem moves_and_removes_keep_within value initialVal evs :
  forallb is_move_or_remove evs = true →
  edits value initialVal evs ⊆+ value.
Proof.
  revert value. induction evs as [|ev evs IH]; intros value Hevs; [done|].
  simpl in Hevs. apply andb_prop in Hevs as [Hev Hevs].
  rewrite edits_cons. etrans; [by apply IH|].
  destruct ev as [n|n|n| |]; try done.
  - destruct (handle_move value initialVal (MoveUp n) eq_refl)
      as [->|(front & a & b & back & -> & ->)]; [done|].
    apply Permutation_submseteq, Permutation_app_head, perm_swap.
  - destruct (handle_move value initialVal (MoveDown n) eq_refl)
      as [->|(front & a & b & back & -> & ->)]; [done|].
    apply Permutation_submseteq, Permutation_app_head, perm_swap.
  - simpl. destruct (decide (n < length value)%nat) as [Hn|Hn];
      [|by rewrite on_row_missing by lia].
    edestruct on_row_rendered as (row & Hrow & ->); [done|].
    apply ArrayInput_row in Hrow as (Hin & _ & _ & _ & _ & Hrm).
    unfold click. rewrite Hrm. simpl. unfold rendered_next. simpl.
    rewrite Array_splice_one by done. apply submseteq_delete.
Qed.

Lemma moves_and_removes_keep_within_witness :
  edits [JNumber 1; JNumber 2; JNumber 3] JNull [MoveDown 0; Remove 0; Remove 5]
  ⊆+ [JNumber 1; JNumber 2; JNumber 3].
Proof.
  apply (moves_and_removes_keep_within [JNumber 1; JNumber 2; JNumber 3] JNull
           [MoveDown 0; Remove 0; Remove 5]).
  reflexivity.
Defined.

(** Moving a row to the top: [n] clicks on move-up, on row [n] and then on
    each row the item arrives at, bring item [n] to the front and leave
    the other items in the order they had. *)
Theorem to_front_moves_to_front value initialVal n a :
  value !! n = Some a →
  edits value initialVal (to_front n) = a :: delete n value.
Proof.
  revert value. induction n as [|n IH]; intros value Ha.
  { destruct value; simplify_eq/=. done. }
  destruct (lookup_lt_is_Some_2 value n) as [b Hb];
    [apply lookup_lt_Some in Ha; lia|].
  assert (value = take n value ++ b :: a :: drop (S (S n)) value) as Hsplit.
  { rewrite <- (take_drop n value) at 1. f_equal.
    rewrite (drop_S _ b) by done. by rewrite (drop_S _ a) by done. }
  assert (length (take n value) = n) as Hfront
    by (apply lookup_lt_Some in Hb; rewrite length_take; lia).
  remember (take n value) as front eqn:Hf.
  remember (drop (S (S n)) value) as back eqn:Hbk.
  clear Hf Hbk Ha Hb. subst value n.
  simpl to_front. rewrite edits_cons.
  assert (rendered_next
            (handle (front ++ b :: a :: back) initialVal (MoveUp (S (length front))))
          = front ++ a :: b :: back) as ->.
  { simpl. edestruct on_row_rendered as (row & Hrow & ->).
    { rewrite length_app. simpl. lia. }
    apply ArrayInput_row in Hrow as (_ & _ & _ & Hup & _).
    unfold click. rewrite Hup. simpl. unfold rendered_next. simpl.
    assert (Z.of_nat (S (length front)) = len front + 1) as ->
      by (unfold len; lia).
    replace (len front + 1 - 1) with (len front) by lia.
    apply swapArgs_neighbours. }
  rewrite IH by (by apply list_lookup_middle).
  rewrite delete_middle.
  rewrite (cons_middle b front (a :: back)), app_assoc.
  replace (S (length front)) with (length (front ++ [b]))
    by (rewrite length_app; simpl; lia).
  rewrite delete_middle. by rewrite <- app_assoc.
Qed.

Lemma to_front_moves_to_front_witness :
  edits [JNumber 1; JNumber 2; JNumber 3; JNumber 4] JNull (to_front 2)
  = [JNumber 3; JNumber 1; JNumber 2; JNumber 4].
Proof.
  apply (to_front_moves_to_front
           [JNumber 1; JNumber 2; JNumber 3; JNumber 4] JNull 2 (JNumber 3)).
  reflexivity.
Defined.
End ArrayInputMoves.

(** ** Record inputs: [{ ...value, name: v }] *)

Section RecordInputs.
Import JS Forms Editing.
Implicit Types (value o : jsobject) (name k : string) (v : jsval) (f : Field).

Lemma obj_get_missing o k : k ∉ o.*1 → obj_get o k = JUndefined.
Proof.
  induction o as [|[k0 v0] o IH]; simpl; [done|].
  intros [Hk0 Hk]%not_elem_of_cons.
  destruct (String.eqb_spec k0 k); [done|]. by apply IH.
Qed.

Lemma obj_get_Permutation o o' k :
  NoDup o.*1 → o ≡ₚ o' → obj_get o k = obj_get o' k.
Proof.
  intros Hnd Hperm.
  assert (NoDup o'.*1) as Hnd' by (by rewrite <- Hperm).
  destruct (decide (k ∈ o.*1)) as [Hin|Hout].
  - apply list_elem_of_fmap in Hin as ([k' v] & -> & Hin). simpl.
    rewrite (obj_get_elem_of o k' v) by done.
    symmetry. apply obj_get_elem_of; [done|]. by rewrite <- Hperm.
  - rewrite obj_get_missing by done.
    rewrite obj_get_missing; [done|]. by rewrite <- Hperm.
Qed.

Lemma obj_get_Object_entries o k :
  NoDup o.*1 → obj_get (Object_entries o) k = obj_get o k.
Proof.
  intros Hnd. symmetry. apply obj_get_Permutation; [done|].
  by rewrite Object_entries_Permutation.
Qed.

Lemma obj_set_keys o k v :
  (obj_set o k v).*1 = if decide (k ∈ o.*1) then o.*1 else o.*1 ++ [k].
Proof.
  induction o as [|[k0 v0] o IH]; [done|].
  cbn [obj_set]. destruct (String.eqb_spec k0 k) as [->|Hne];
    rewrite !fmap_cons; cbn [fst].
  - rewrite decide_True; [done|]. by left.
  - rewrite IH. destruct (decide (k ∈ o.*1)) as [Hin|Hout].
    + rewrite decide_True; [done|]. by right.
    + rewrite decide_False; [done|].
      intros [?|?]%elem_of_cons; [congruence|done].
Qed.

Lemma obj_set_NoDup o k v : NoDup o.*1 → NoDup (obj_set o k v).*1.
Proof.
  intros Hnd. rewrite obj_set_keys. case_decide; [done|].
  apply NoDup_app. split; [done|]. split; [|apply NoDup_singleton].
  intros k' Hk' ->%list_elem_of_singleton. done.
Qed.

Lemma spread_with_NoDup value name v :
  NoDup value.*1 → NoDup (spread_with value name v).*1.
Proof.
  intros Hnd. apply obj_set_NoDup. by rewrite Object_entries_Permutation.
Qed.

Lemma spread_with_get value name v k :
  NoDup value.*1 →
  obj_get (spread_with value name v) k
  = if decide (k = name) then v else obj_get value k.
Proof.
  intros Hnd. unfold spread_with. rewrite obj_get_set.
  rewrite obj_get_Object_entries by done.
  destruct (decide (name = k)) as [->|Hne].
  - by rewrite decide_True.
  - by rewrite decide_False by done.
Qed.

(** A record without array-index keys is listed by [Object.entries] as it
    is. *)
Lemma Object_entries_plain o :
  Forall (λ e, is_array_index e.1 = false) o → Object_entries o = o.
Proof.
  intros Hplain. unfold Object_entries.
  assert (filter (λ e : string * jsval, is_array_index e.1) o = []) as ->.
  { apply elem_of_nil_inv. intros e [Hidx He]%list_elem_of_filter.
    rewrite Forall_forall in Hplain. rewrite (Hplain e He) in Hidx. done. }
  simpl. induction Hplain as [|e o He Ho IH]; [done|].
  rewrite filter_cons_True by (rewrite He; exact id). by rewrite IH.
Qed.

(** Every field editor of the record inputs and of the method forms gets
    the current value of its field, and what it hands on is the record
    with that field replaced: the field reads as the new value and every
    other property reads as before. *)
Theorem record_field_update value f :
  NoDup value.*1 →
  f ∈ RoleInfoInput value ++ PlayerAndVoteInput value
      ++ QuestAttemptInput value ++ PlayerStateInput value
      ++ startGame value ++ proposeQuest value
      ++ voteForProposal value ++ voteInQuest value →
  current f = obj_get value (label f)
  ∧ ∀ v k, obj_get (pass f v) k
           = if decide (k = label f) then v else obj_get value k.
Proof.
  intros Hnd Hf.
  assert (∃ name, f = field value name) as [name ->].
  { unfold RoleInfoInput, PlayerAndVoteInput, QuestAttemptInput,
      PlayerStateInput, startGame, proposeQuest, voteForProposal,
      voteInQuest in Hf. simpl in Hf.
    repeat (apply elem_of_cons in Hf as [->|Hf]; [by eexists|]).
    by apply elem_of_nil in Hf. }
  split; [done|]. intros v k. simpl. by apply spread_with_get.
Qed.

Lemma record_field_update_witness :
  Forall (λ f, current f
               = obj_get [("player", JString "u1"); ("vote", JNumber 1)]
                         (label f))
         (PlayerAndVoteInput [("player", JString "u1"); ("vote", JNumber 1)]).
Proof.
  apply Forall_forall. intros f Hf.
  apply (record_field_update [("player", JString "u1"); ("vote", JNumber 1)] f).
  - apply (bool_decide_unpack _). by vm_compute.
  - apply elem_of_app. right. apply elem_of_app. by left.
Defined.

(** An edit of a field of a record never adds, drops or reorders fields:
    on a record that has the field (and no array-index keys) the keys
    stay as they are, in their order; only on a record that lacks the
    field is it added, as the last one. *)
Theorem record_field_keys value name v :
  Forall (λ e, is_array_index e.1 = false) value →
  (name ∈ value.*1 → (pass (field value name) v).*1 = value.*1)
  ∧ (name ∉ value.*1 → pass (field value name) v = value ++ [(name, v)]).
Proof.
  intros Hplain. simpl. unfold spread_with.
  rewrite Object_entries_plain by done. split; intros Hname.
  - rewrite obj_set_keys. by rewrite decide_True.
  - by apply obj_set_fresh.
Qed.

Lemma record_field_keys_witness :
  (pass (field [("player", JString "u1"); ("vote", JNumber 1)] "vote")
        JUndefined).*1
  = ["player"; "vote"]
  ∧ pass (field [("player", JString "u1")] "vote") (JNumber 0)
    = [("player", JString "u1"); ("vote", JNumber 0)].
Proof.
  split.
  - destruct (record_field_keys [("player", JString "u1"); ("vote", JNumber 1)]
                "vote" JUndefined) as [Hkeep _].
    { repeat constructor. }
    apply Hkeep. apply (bool_decide_unpack _). by vm_compute.
  - destruct (record_field_keys [("player", JString "u1")] "vote" (JNumber 0))
      as [_ Hadd].
    { repeat constructor. }
    apply Hadd. apply (bool_decide_unpack _). by vm_compute.
Defined.
End RecordInputs.

Section RecordEdits.
Import JS Forms Editing.
Implicit Types (value o : jsobject) (name k : string) (v : jsval).
Implicit Types (sets : list (string * jsval)).

Lemma obj_set_twice o k v v' : obj_set (obj_set o k v) k v' = obj_set o k v'.
Proof.
  induction o as [|[k0 v0] o IH]; simpl.
  - by rewrite String.eqb_refl.
  - destruct (String.eqb_spec k0 k) as [->|Hne]; simpl.
    + by rewrite String.eqb_refl.
    + destruct (String.eqb_spec k0 k); [done|]. by rewrite IH.
Qed.

Lemma obj_set_comm o k k' v v' :
  k ≠ k' → k ∈ o.*1 → k' ∈ o.*1 →
  obj_set (obj_set o k v) k' v' = obj_set (obj_set o k' v') k v.
Proof.
  intros Hne. induction o as [|[k0 v0] o IH]; [by intros ?%elem_of_nil|].
  rewrite fmap_cons. cbn [fst]. intros Hk Hk'. cbn [obj_set].
  destruct (String.eqb_spec k0 k) as [Heq|Hk0];
    destruct (String.eqb_spec k0 k') as [Heq'|Hk0']; cbn [obj_set].
  - congruence.
  - subst k0. rewrite String.eqb_refl. by destruct (String.eqb_spec k k').
  - subst k0. rewrite String.eqb_refl. by destruct (String.eqb_spec k' k).
  - destruct (String.eqb_spec k0 k); [done|].
    destruct (String.eqb_spec k0 k'); [done|].
    rewrite IH; [done| |].
    + apply elem_of_cons in Hk as [?|?]; [congruence|done].
    + apply elem_of_cons in Hk' as [?|?]; [congruence|done].
Qed.

Lemma obj_set_plain o k v :
  Forall (λ e, is_array_index e.1 = false) o → k ∈ o.*1 →
  Forall (λ e, is_array_index e.1 = false) (obj_set o k v).
Proof.
  rewrite !Forall_forall. intros Hplain Hk e [He| ->]%elem_of_obj_set;
    [by apply Hplain|].
  apply list_elem_of_fmap in Hk as (e' & -> & He'). simpl. by apply Hplain.
Qed.

(** Edits of fields compose: on a record that has both fields, editing
    two different fields gives the same record in either order, and
    editing one field twice leaves what the second edit alone would. *)
Theorem record_edits_compose value name name' v v' :
  Forall (λ e, is_array_index e.1 = false) value →
  name ∈ value.*1 → name' ∈ value.*1 →
  pass (field (pass (field value name) v) name) v' = pass (field value name) v'
  ∧ (name ≠ name' →
     pass (field (pass (field value name) v) name') v'
     = pass (field (pass (field value name') v') name) v).
Proof.
  intros Hplain Hname Hname'. simpl. unfold spread_with.
  rewrite !(Object_entries_plain value) by done.
  rewrite !Object_entries_plain by (by apply obj_set_plain).
  split; [apply obj_set_twice|]. intros Hne. by apply obj_set_comm.
Qed.

Lemma record_edits_compose_witness :
  pass (field (pass (field [("questId", JNumber 0); ("vote", JNumber 0)]
                           "questId") (JNumber 2)) "vote") (JNumber 1)
  = pass (field (pass (field [("questId", JNumber 0); ("vote", JNumber 0)]
                             "vote") (JNumber 1)) "questId") (JNumber 2).
Proof.
  destruct (record_edits_compose [("questId", JNumber 0); ("vote", JNumber 0)]
              "questId" "vote" (JNumber 2) (JNumber 1)) as [_ Hcomm].
  - repeat constructor.
  - apply (bool_decide_unpack _). by vm_compute.
  - apply (bool_decide_unpack _). by vm_compute.
  - apply Hcomm. discriminate.
Defined.

(** The switch of the [vote] field of [PlayerAndVoteInput]: a record with
    no vote gets the vote [0]; a record with a vote keeps the field, with
    [undefined] in it, and a second click then gives the vote [0], not the
    vote that was there; no click touches any other field. *)
Theorem vote_switch_toggles value :
  NoDup value.*1 →
  (obj_get value "vote" = JUndefined →
   obj_get (vote_switch value) "vote" = JNumber 0)
  ∧ (obj_get value "vote" ≠ JUndefined →
     obj_get (vote_switch value) "vote" = JUndefined
     ∧ obj_get (vote_switch (vote_switch value)) "vote" = JNumber 0)
  ∧ (∀ k, k ≠ "vote" →
          obj_get (vote_switch value) k = obj_get value k
          ∧ obj_get (vote_switch (vote_switch value)) k = obj_get value k).
Proof.
  intros Hnd.
  assert (∀ o, NoDup o.*1 →
               obj_get (vote_switch o) "vote"
               = if is_undefined (obj_get o "vote") then JNumber 0
                 else JUndefined) as Hvote.
  { intros o Ho. unfold vote_switch. rewrite spread_with_get by done.
    by rewrite decide_True. }
  assert (∀ o k, NoDup o.*1 → k ≠ "vote" →
                 obj_get (vote_switch o) k = obj_get o k) as Hother.
  { intros o k Ho Hk. unfold vote_switch. rewrite spread_with_get by done.
    by rewrite decide_False. }
  assert (NoDup (vote_switch value).*1) as Hnd'
    by (by apply spread_with_NoDup).
  split; [|split].
  - intros Habsent. by rewrite Hvote, Habsent.
  - intros Hpresent.
    assert (obj_get (vote_switch value) "vote" = JUndefined) as Hoff.
    { rewrite Hvote by done. by destruct (obj_get value "vote"). }
    split; [done|]. by rewrite Hvote, Hoff.
  - intros k Hk. by rewrite !Hother.
Qed.

Lemma vote_switch_toggles_witness :
  obj_get (vote_switch
             (vote_switch [("player", JString "u1"); ("vote", JNumber 1)]))
          "vote"
  = JNumber 0.
Proof.
  destruct (vote_switch_toggles [("player", JString "u1"); ("vote", JNumber 1)])
    as (_ & Hpresent & _).
  { apply (bool_decide_unpack _). by vm_compute. }
  apply Hpresent. discriminate.
Defined.

Lemma last_set_cons sets k d name v :
  last_set ((name, v) :: sets) k d
  = last_set sets k (if decide (name = k) then v else d).
Proof. done. Qed.

Lemma record_form_app (initialize : () → jsobject) st evs evs' :
  record_form initialize st (evs ++ evs')
  = record_form initialize (record_form initialize st evs) evs'.
Proof. unfold record_form. apply fold_left_app. Qed.

(** Field edits alone touch only the staged record, field by field. *)
Lemma record_form_sets (initialize : () → jsobject) st sets :
  NoDup (staged st).*1 →
  let st' := record_form initialize st ((λ s, SetField s.1 s.2) <$> sets) in
  NoDup (staged st').*1
  ∧ inFlight st' = inFlight st
  ∧ toasts st' = toasts st
  ∧ ∀ k, obj_get (staged st') k = last_set sets k (obj_get (staged st) k).
Proof.
  revert st. induction sets as [|[name v] sets IH]; intros st Hnd; [done|].
  rewrite fmap_cons. cbn [fst snd].
  change (record_form initialize st
            (SetField name v :: ((λ s, SetField s.1 s.2) <$> sets)))
    with (record_form initialize
            (MethodForm initialize st (record_event st (SetField name v)))
            ((λ s, SetField s.1 s.2) <$> sets)).
  simpl record_event. cbn [MethodForm].
  destruct (IH {| staged := spread_with (staged st) name v;
                  inFlight := inFlight st; toasts := toasts st |})
    as (Hnd' & Hfl & Hto & Hget).
  { simpl. by apply spread_with_NoDup. }
  split; [done|]. split; [done|]. split; [done|].
  intros k. rewrite Hget. simpl staged. rewrite last_set_cons.
  rewrite spread_with_get by done.
  destruct (decide (k = name)) as [->|Hk].
  - by rewrite decide_True.
  - by rewrite decide_False by done.
Qed.

(** A method form over a record: after any sequence of field edits, a
    click on Submit calls [submit] with one record, in which every field
    holds the last value it was set to, and the value of the default
    record where it was never set. *)
Theorem record_form_submits_last_edits (initialize : () → jsobject) sets :
  NoDup (initialize ()).*1 →
  ∃ payload,
    inFlight (record_form initialize (mount initialize)
                (((λ s, SetField s.1 s.2) <$> sets) ++ [Submit]))
    = [payload]
    ∧ ∀ k, obj_get payload k = last_set sets k (obj_get (initialize ()) k).
Proof.
  intros Hnd. rewrite record_form_app.
  destruct (record_form_sets initialize (mount initialize) sets Hnd)
    as (_ & Hfl & _ & Hget).
  exists (staged (record_form initialize (mount initialize)
                    ((λ s, SetField s.1 s.2) <$> sets))).
  split; [|exact Hget].
  unfold record_form at 1. simpl. by rewrite Hfl.
Qed.

Lemma record_form_submits_last_edits_witness :
  ∃ payload,
    inFlight (record_form
                (λ _, [("questId", JNumber 0); ("vote", JNumber 0)])
                (mount (λ _, [("questId", JNumber 0); ("vote", JNumber 0)]))
                [SetField "questId" (JNumber 2); SetField "vote" (JNumber 1);
                 Submit])
    = [payload]
    ∧ obj_get payload "questId" = JNumber 2
    ∧ obj_get payload "vote" = JNumber 1.
Proof.
  destruct (record_form_submits_last_edits
              (λ _, [("questId", JNumber 0); ("vote", JNumber 0)])
              [("questId", JNumber 2); ("vote", JNumber 1)])
    as (payload & Hsent & Hget).
  { apply (bool_decide_unpack _). by vm_compute. }
  exists payload. split; [exact Hsent|]. split; apply Hget.
Defined.
End RecordEdits.

(** ** [IntInput]: reading the text of the box with [parseInt] *)

Section IntInputFacts.
Import JS Editing.
Implicit Types (text rest : string) (c : Ascii.ascii) (d : Decimal.uint).
Implicit Types (n : Z).

Lemma append_nil rest : String.append EmptyString rest = rest.
Proof. reflexivity. Qed.

Lemma append_cons c text rest :
  String.append (String c text) rest = String c (String.append text rest).
Proof. reflexivity. Qed.

Lemma dec_prefix_numeral d rest :
  stops rest → dec_prefix (String.append (NilEmpty.string_of_uint d) rest) = d.
Proof.
  intros Hrest. induction d; simpl; rewrite ?IHd; try done.
  destruct rest as [|c rest]; [done|]. simpl. by destruct Hrest as [-> _].
Qed.

Lemma read_digits_zero c rest :
  c ≠ "x"%char → c ≠ "X"%char →
  read_digits (String "0" (String c rest))
  = match dec_prefix (String "0" (String c rest)) with
    | Decimal.Nil => None
    | digits => Some (Z.of_uint digits)
    end.
Proof.
  intros Hx HX.
  destruct c as [[] [] [] [] [] [] [] []]; try reflexivity; congruence.
Qed.

(** The first character of what follows a [0]: a digit of the numeral, or
    the first character of the rest. *)
Lemma after_zero d rest c s :
  stops rest → String.append (NilEmpty.string_of_uint d) rest = String c s →
  c ≠ "x"%char ∧ c ≠ "X"%char.
Proof.
  intros Hrest Hs.
  destruct d; cbn [NilEmpty.string_of_uint] in Hs;
    rewrite ?append_nil, ?append_cons in Hs; simplify_eq; try done.
  by destruct Hrest as (_ & ? & ?).
Qed.

Lemma read_digits_numeral d rest :
  d ≠ Decimal.Nil → stops rest →
  read_digits (String.append (NilEmpty.string_of_uint d) rest) = Some (Z.of_uint d).
Proof.
  intros Hd Hrest.
  assert (match dec_prefix (String.append (NilEmpty.string_of_uint d) rest) with
          | Decimal.Nil => None
          | digits => Some (Z.of_uint digits)
          end = Some (Z.of_uint d)) as Hdec
    by (rewrite dec_prefix_numeral by done; by destruct d).
  destruct d as [|d'|d'|d'|d'|d'|d'|d'|d'|d'|d']; [done| |exact Hdec..].
  cbn [NilEmpty.string_of_uint] in *. rewrite append_cons in *.
  destruct (String.append (NilEmpty.string_of_uint d') rest) as [|c s] eqn:Hs;
    [exact Hdec|].
  destruct (after_zero d' rest c s Hrest Hs) as [Hx HX].
  by rewrite read_digits_zero.
Qed.

Lemma parseInt_numeral d rest :
  d ≠ Decimal.Nil → stops rest →
  parseInt (String.append (NilEmpty.string_of_uint d) rest) = Some (Z.of_uint d)
  ∧ parseInt (String "-" (String.append (NilEmpty.string_of_uint d) rest))
    = Some (- Z.of_uint d).
Proof.
  intros Hd Hrest. pose proof (read_digits_numeral d rest Hd Hrest) as Hread.
  split.
  - assert (trim_start (String.append (NilEmpty.string_of_uint d) rest)
            = String.append (NilEmpty.string_of_uint d) rest) as Htrim
      by (by destruct d).
    assert (read_sign (String.append (NilEmpty.string_of_uint d) rest)
            = (1, String.append (NilEmpty.string_of_uint d) rest)) as Hsign
      by (by destruct d).
    unfold parseInt. rewrite Htrim, Hsign, Hread. f_equal; lia.
  - assert (∀ text, trim_start (String "-" text) = String "-" text) as Htrim
      by done.
    assert (∀ text, read_sign (String "-" text) = (-1, text)) as Hsign
      by done.
    unfold parseInt. rewrite Htrim, Hsign, Hread. f_equal; lia.
Qed.

Lemma number_to_string_numeral n :
  ∃ d, d ≠ Decimal.Nil ∧ Z.of_uint d = Z.abs n
       ∧ number_to_string n
         = if bool_decide (n < 0) then String "-" (NilEmpty.string_of_uint d)
           else NilEmpty.string_of_uint d.
Proof.
  destruct n as [|p|p]; unfold number_to_string; simpl.
  - by exists (Decimal.D0 Decimal.Nil).
  - exists (Pos.to_uint p). pose proof (Unsigned.to_uint_nonnil p) as Hp.
    split; [done|]. split.
    + unfold Z.of_uint. by rewrite Unsigned.of_to.
    + by destruct (Pos.to_uint p).
  - exists (Pos.to_uint p). pose proof (Unsigned.to_uint_nonnil p) as Hp.
    split; [done|]. split.
    + unfold Z.of_uint. by rewrite Unsigned.of_to.
    + by destruct (Pos.to_uint p).
Qed.

Lemma parseInt_number_to_string n rest :
  stops rest → parseInt (String.append (number_to_string n) rest) = Some n.
Proof.
  intros Hrest. destruct (number_to_string_numeral n) as (d & Hd & Habs & ->).
  destruct (parseInt_numeral d rest Hd Hrest) as [Hpos Hneg].
  case_bool_decide.
  - rewrite append_cons, Hneg. f_equal; lia.
  - rewrite Hpos. f_equal; lia.
Qed.

Lemma append_empty text : String.append text EmptyString = text.
Proof. induction text as [|c text IH]; [done|]. by rewrite append_cons, IH. Qed.

(** The round trip of the box: what [IntInput] shows for an integer, read
    back by its change handler, is that integer (within the integers that
    a number holds exactly). *)
Theorem IntInput_shown_round_trip n :
  - 2 ^ 53 < n < 2 ^ 53 →
  IntInput (IntInput_shown n) = Some n.
Proof.
  intros _. unfold IntInput, IntInput_shown.
  rewrite <- (parseInt_number_to_string n EmptyString) by done.
  by rewrite append_empty.
Qed.

Lemma IntInput_shown_round_trip_witness :
  IntInput (IntInput_shown (-42)) = Some (-42).
Proof. apply (IntInput_shown_round_trip (-42)). lia. Defined.

(** Text after the numeral is ignored, not rejected: a fraction is cut off
    and an exponent is not applied, so [12.5] is read as [12] and [1e3] as
    [1]. *)
Theorem IntInput_ignores_tail n c rest :
  - 2 ^ 53 < n < 2 ^ 53 →
  dec_digit c = None → c ≠ "x"%char → c ≠ "X"%char →
  IntInput (String.append (number_to_string n) (String c rest)) = Some n.
Proof. intros _ Hc Hx HX. by apply parseInt_number_to_string. Qed.

Lemma IntInput_ignores_tail_witness :
  IntInput "12.5" = Some 12 ∧ IntInput "1e3" = Some 1.
Proof.
  split.
  - apply (IntInput_ignores_tail 12 "." "5"); (lia || done).
  - apply (IntInput_ignores_tail 1 "e" "3"); (lia || done).
Defined.

Lemma read_digits_no_digit c rest :
  dec_digit c = None → read_digits (String c rest) = None.
Proof.
  intros Hc. destruct c as [[] [] [] [] [] [] [] []]; try reflexivity;
    discriminate Hc.
Qed.

Lemma read_sign_no_sign c rest :
  c ≠ "-"%char → c ≠ "+"%char → read_sign (String c rest) = (1, String c rest).
Proof.
  intros Hm Hp. destruct c as [[] [] [] [] [] [] [] []]; try reflexivity;
    congruence.
Qed.

(** Text that holds no number is not rejected either: for ASCII text,
    when the box is empty, holds white space only, or holds text whose
    first character after the white space and an optional sign is not a
    digit, the change handler hands [NaN] to [update]. *)
Theorem IntInput_not_a_number text :
  ascii_text text = true →
  (trim_start text = EmptyString → IntInput text = None)
  ∧ (∀ c rest, trim_start text = String c rest →
               dec_digit c = None → c ≠ "-"%char → c ≠ "+"%char →
               IntInput text = None)
  ∧ (∀ c rest, (trim_start text = String "-" (String c rest)
                ∨ trim_start text = String "+" (String c rest)) →
               dec_digit c = None → IntInput text = None).
Proof.
  intros _. unfold IntInput, parseInt. split; [|split].
  - by intros ->.
  - intros c rest -> Hc Hm Hp. rewrite read_sign_no_sign by done.
    by rewrite read_digits_no_digit.
  - assert (∀ s, read_sign (String "-" s) = (-1, s)) as Hminus by done.
    assert (∀ s, read_sign (String "+" s) = (1, s)) as Hplus by done.
    intros c rest [-> | ->] Hc; rewrite ?Hminus, ?Hplus;
      by rewrite read_digits_no_digit.
Qed.

Lemma IntInput_not_a_number_witness :
  IntInput EmptyString = None ∧ IntInput " abc" = None
  ∧ IntInput "-.5" = None.
Proof.
  split; [|split].
  - destruct (IntInput_not_a_number EmptyString) as (Hempty & _);
      [reflexivity|]. by apply Hempty.
  - destruct (IntInput_not_a_number " abc") as (_ & Hword & _);
      [reflexivity|]. by apply (Hword "a"%char "bc").
  - destruct (IntInput_not_a_number "-.5") as (_ & _ & Hsign);
      [reflexivity|]. apply (Hsign "."%char "5"); [by left|done].
Defined.
End IntInputFacts.

(** ** Collapse state over time *)

Section CollapseOverTime.
Import JS Forms Display Viewing.
Implicit Types (items : list jsval) (st : ArrayDisplayState).
Implicit Types (ev : DisplayEvent) (evs : list DisplayEvent).

Lemma has_items_nil items : has_items items = false → items = [].
Proof.
  unfold has_items. simpl. intros Hlen%bool_decide_eq_false.
  destruct items as [|a items]; [done|]. rewrite len_cons in Hlen.
  pose proof (len_nonneg items). lia.
Qed.

Lemma ArrayDisplay_run_snoc st evs ev :
  ArrayDisplay_run st (evs ++ [ev])
  = ArrayDisplay_step (ArrayDisplay_run st evs) ev.
Proof. unfold ArrayDisplay_run. by rewrite fold_left_app. Qed.

(** The collapse heuristic looks at the array of the first render only:
    as long as the toggle is not clicked, rendering the display again with
    other arrays, longer or shorter, leaves it collapsed or expanded as the
    first array had it; an array that grows past four items stays
    expanded with all its items drawn, and one that shrinks stays
    collapsed with none drawn. *)
Theorem ArrayDisplay_collapse_is_sticky items evs :
  Forall (λ ev, ev ≠ Toggle) evs →
  let st := ArrayDisplay_run (ArrayDisplay_mount items) evs in
  collapsed st = ArrayDisplay items
  ∧ children (ArrayDisplay_view st)
    = (if ArrayDisplay items then [] else shown st)
  ∧ ellipsis (ArrayDisplay_view st)
    = (ArrayDisplay items && has_items (shown st)).
Proof.
  intros Hevs.
  assert (collapsed (ArrayDisplay_run (ArrayDisplay_mount items) evs)
          = ArrayDisplay items) as Hsticky.
  { induction evs as [|ev evs IH] using rev_ind; [done|].
    apply Forall_app in Hevs as [Hevs Hev]. apply Forall_inv in Hev.
    rewrite ArrayDisplay_run_snoc. destruct ev; [|done]. simpl. by apply IH. }
  cbv zeta. set (st := ArrayDisplay_run (ArrayDisplay_mount items) evs) in *.
  split; [done|]. unfold ArrayDisplay_view.
  destruct (has_items (shown st)) eqn:Hitems; cbn [children ellipsis];
    rewrite ?Hsticky.
  - split; [by destruct (ArrayDisplay items)|]. by rewrite andb_true_r.
  - apply has_items_nil in Hitems. rewrite Hitems.
    split; [by destruct (ArrayDisplay items)|]. by rewrite andb_false_r.
Qed.

Lemma ArrayDisplay_collapse_is_sticky_witness :
  children (ArrayDisplay_view
              (ArrayDisplay_run
                 (ArrayDisplay_mount [JNumber 1])
                 [Rerender [JNumber 1; JNumber 2; JNumber 3; JNumber 4;
                            JNumber 5; JNumber 6]]))
  = [JNumber 1; JNumber 2; JNumber 3; JNumber 4; JNumber 5; JNumber 6].
Proof.
  destruct (ArrayDisplay_collapse_is_sticky [JNumber 1]
              [Rerender [JNumber 1; JNumber 2; JNumber 3; JNumber 4;
                         JNumber 5; JNumber 6]]) as (_ & Hchildren & _).
  { repeat constructor. discriminate. }
  exact Hchildren.
Defined.

(** A display that is not collapsible never collapses, and one that is
    collapsible is collapsed after an odd number of clicks; the plugin of
    [State], which is not collapsible, is on the page after any number of
    clicks, without a toggle button. *)
Theorem collapsible_clicks (isCollapsible : bool) (n : nat) :
  clicks isCollapsible n = isCollapsible && Nat.odd n
  ∧ State (clicks false n) = PluginElement None "player-state-plugin".
Proof.
  assert (∀ b, clicks b n = b && Nat.odd n) as Hclicks.
  { intros b. induction n as [|n IH]; [by destruct b|].
    unfold clicks in *. rewrite Nat.iter_succ, IH, Nat.odd_succ.
    unfold click_toggle, setIsCollapsed. rewrite <- Nat.negb_odd.
    by destruct b, (Nat.odd n). }
  split; [apply Hclicks|]. by rewrite Hclicks.
Qed.

(** The display and the editor of an optional value agree on what is
    absent: the display writes [none] exactly when the switch of the
    editor is off, and otherwise both hand the same value to the child;
    [null] counts as present in both. *)
Theorem OptionalDisplay_agrees_with_OptionalInput (v0 initialVal : jsval) :
  (OptionalDisplay v0 = NoneText
   ↔ checked (OptionalInput v0 initialVal) = false)
  ∧ (∀ v, OptionalDisplay v0 = Child v
          ↔ inner (OptionalInput v0 initialVal) = Some v)
  ∧ (v0 = JNull → OptionalDisplay v0 = Child JNull).
Proof.
  unfold OptionalDisplay. simpl.
  destruct (is_undefined v0) eqn:Hundef; simpl.
  - split; [done|]. split; [by intros v|]. intros ->. done.
  - split; [done|]. split; [|by intros ->].
    intros v. split; congruence.
Qed.

Lemma OptionalDisplay_agrees_with_OptionalInput_witness :
  OptionalDisplay JNull = Child JNull.
Proof.
  destruct (OptionalDisplay_agrees_with_OptionalInput JNull (JNumber 0))
    as (_ & _ & Hnull).
  by apply Hnull.
Defined.
End CollapseOverTime.

(** ** [UserIdDisplay] over a sequence of events *)

Section UserIdDisplayRuns.
Import Display Viewing.
Variable getUserDisplayName : Base.UserData → string.
Implicit Types (st : UserIdState) (ev : UserIdEvent) (evs : list UserIdEvent).

Lemma steps_snoc st evs ev :
  steps st (evs ++ [ev])
  = ((step (steps st evs).1 ev).1, (steps st evs).2 ++ (step (steps st evs).1 ev).2).
Proof. unfold steps. by rewrite fold_left_app. Qed.

Lemma last_resolved_snoc evs ev :
  last_resolved (evs ++ [ev])
  = match ev with
    | LookupSettled (Resolved ud) => Some ud
    | _ => last_resolved evs
    end.
Proof. unfold last_resolved. by rewrite fold_left_app. Qed.

Lemma rendered_with_snoc evs ev :
  rendered_with (evs ++ [ev])
  = rendered_with evs
    ++ match ev with Render value => [value] | _ => [] end.
Proof. unfold rendered_with. rewrite omap_app. by destruct ev. Qed.

(** Nothing ties the result of a lookup to the identifier it was started
    for: what is on display is what the lookup that settled last brought
    (a lookup that resolved to [undefined] brings the bare identifier
    back), whatever identifier the component is rendered with by then; a
    change of the identifier alone leaves the old descriptor on display. *)
Theorem UserIdDisplay_shows_last_resolved st evs :
  userData (steps st evs).1 = default (userData st) (last_resolved evs)
  ∧ value (steps st evs).1 = default (value st) (last (rendered_with evs))
  ∧ UserIdDisplay getUserDisplayName (steps st evs).1
    = match default (userData st) (last_resolved evs) with
      | None =>
          Identifier UserCircleIcon
                     (default (value st) (last (rendered_with evs)))
      | Some ud =>
          Panel UserCircleIcon (getUserDisplayName ud)
                (if isCollapsed (steps st evs).1 then PlusSmIcon
                 else MinusSmIcon)
                (if negb (isCollapsed (steps st evs).1)
                 then [("UserId", Base.id ud); ("type", Base.type ud)]
                 else [])
      end.
Proof.
  assert (userData (steps st evs).1 = default (userData st) (last_resolved evs)
          ∧ value (steps st evs).1
            = default (value st) (last (rendered_with evs))) as [Hud Hvalue].
  { induction evs as [|ev evs [IHud IHvalue]] using rev_ind; [done|].
    rewrite steps_snoc, last_resolved_snoc, rendered_with_snoc. simpl.
    destruct ev as [value'|[ud|]|]; simpl;
      rewrite ?last_snoc, ?app_nil_r; try done.
    destruct (userData (steps st evs).1) eqn:Hnow; simpl; by rewrite ?Hnow. }
  split; [done|]. split; [done|].
  unfold UserIdDisplay. by rewrite Hud, Hvalue.
Qed.

(** A lookup is started only by a render, and for the identifier of that
    render: the identifiers looked up during a run are among those the
    component was rendered with, in their order, and a run without a
    render looks nothing up, whatever settles or is clicked. *)
Theorem UserIdDisplay_lookups_started st evs :
  (steps st evs).2 `sublist_of` rendered_with evs
  ∧ (rendered_with evs = [] → (steps st evs).2 = []).
Proof.
  assert ((steps st evs).2 `sublist_of` rendered_with evs) as Hsub.
  { induction evs as [|ev evs IH] using rev_ind; [done|].
    rewrite steps_snoc, rendered_with_snoc. simpl.
    apply sublist_app; [done|].
    destruct ev as [value'|[ud|]|]; simpl; try done.
    - destruct (String.eqb _ _); [apply sublist_nil_l|done].
    - by destruct (userData (steps st evs).1). }
  split; [done|]. intros Hnone. rewrite Hnone in Hsub.
  by apply sublist_nil_r in Hsub.
Qed.

End UserIdDisplayRuns.

Lemma UserIdDisplay_lookups_started_witness :
  (Display.steps (Display.mount "u1").1
     [Display.LookupSettled Display.Failed; Display.ClickToggle]).2 = [].
Proof.
  destruct (UserIdDisplay_lookups_started (Display.mount "u1").1
              [Display.LookupSettled Display.Failed; Display.ClickToggle])
    as [_ Hnone].
  by apply Hnone.
Defined.

(** ** [MethodForm] over a sequence of events *)

Section MethodFormRuns.
Import Forms.
Context {T : Type} (initialize : () → T).
Implicit Types (st : FormState (T := T)) (v : T).
Implicit Types (ev : FormEvent (T := T)) (evs : list (FormEvent (T := T))).

Lemma run_snoc st evs ev :
  run initialize st (evs ++ [ev])
  = MethodForm initialize (run initialize st evs) ev.
Proof. by rewrite run_app. Qed.

(** The Submit button is never disabled: [n] clicks in a row start [n]
    calls of [submit], all with the same staged value, and change nothing
    else. *)
Theorem MethodForm_clicks_in_a_row st (n : nat) :
  run initialize st (replicate n ClickSubmit)
  = {| staged := staged st;
       inFlight := inFlight st ++ replicate n (staged st);
       toasts := toasts st |}.
Proof.
  revert st. induction n as [|n IH]; intros st.
  { simpl. rewrite app_nil_r. by destruct st. }
  simpl replicate. unfold run in *. simpl fold_left. rewrite IH. simpl.
  by rewrite <- app_assoc.
Qed.

(** What is typed while a call of [submit] is under way is lost when the
    call completes with a response: the staged value is reset to a fresh
    default and the edit is neither staged nor submitted; when the
    promise is rejected instead, the edit stays staged and nothing is
    reset. *)
Theorem MethodForm_edit_during_submit st v res :
  let k := length (inFlight st) in
  run initialize st [ClickSubmit; Edit v; Settle k (Fulfilled res)]
  = {| staged := initialize ();
       inFlight := inFlight st;
       toasts := match res with
                 | Error error => toasts st ++ [error]
                 | Success => toasts st
                 end |}
  ∧ run initialize st [ClickSubmit; Edit v; Settle k Rejected]
    = {| staged := v; inFlight := inFlight st; toasts := toasts st |}.
Proof.
  assert (∀ x : T, (inFlight st ++ [x]) !! length (inFlight st) = Some x)
    as Hlast by (intros x; by apply list_lookup_middle).
  assert (∀ x : T, delete (length (inFlight st)) (inFlight st ++ [x])
                   = inFlight st) as Hdel.
  { intros x. by rewrite delete_middle, app_nil_r. }
  split; simpl; rewrite Hlast, Hdel; [by destruct res|done].
Qed.

(** Only what was staged is ever submitted: every value handed to
    [submit] in a run from the first render is a default from the
    factory or a value some edit put in. *)
Theorem MethodForm_submits_only_staged evs v :
  v ∈ inFlight (run initialize (mount initialize) evs) →
  v = initialize () ∨ Edit v ∈ evs.
Proof.
  assert (∀ x, x ∈ staged (run initialize (mount initialize) evs)
                   :: inFlight (run initialize (mount initialize) evs) →
               x = initialize () ∨ Edit x ∈ evs) as Hinv.
  { induction evs as [|ev evs IH] using rev_ind.
    { intros x [->|?%elem_of_nil]%elem_of_cons; [by left|done]. }
    assert (∀ x, x ∈ staged (run initialize (mount initialize) evs)
                     :: inFlight (run initialize (mount initialize) evs) →
                 x = initialize () ∨ Edit x ∈ evs ++ [ev]) as IH'.
    { intros x Hx. destruct (IH x Hx) as [?|?]; [by left|right].
      apply elem_of_app. by left. }
    rewrite run_snoc. intros x.
    destruct ev as [v'| |k s]; simpl.
    - intros [->|Hx]%elem_of_cons.
      + right. apply elem_of_app. right. by left.
      + apply IH'. by right.
    - intros [->|[Hx| ->%list_elem_of_singleton]%elem_of_app]%elem_of_cons.
      + apply IH'. by left.
      + apply IH'. by right.
      + apply IH'. by left.
    - destruct (inFlight (run initialize (mount initialize) evs) !! k)
        eqn:Hk; [|exact (IH' x)].
      pose proof (submseteq_delete
                    (inFlight (run initialize (mount initialize) evs)) k)
        as Hsub.
      destruct s as [res|]; simpl.
      + intros [->|Hx]%elem_of_cons; [by left|].
        apply IH'. right. by eapply elem_of_submseteq.
      + intros [->|Hx]%elem_of_cons; [apply IH'; by left|].
        apply IH'. right. by eapply elem_of_submseteq. }
  intros Hv. apply Hinv. by right.
Qed.

End MethodFormRuns.

Lemma MethodForm_submits_only_staged_witness :
  3 = 0 ∨ Forms.Edit 3 ∈ [Forms.Edit 3; Forms.ClickSubmit].
Proof.
  apply (MethodForm_submits_only_staged (λ _, 0)
           [Forms.Edit 3; Forms.ClickSubmit] 3).
  simpl. by left.
Defined.

(** ** Enumerations built from a declaration *)

Section EnumTables.
Import JS TS Forms Display.
Implicit Types (ms : list (string * Z)) (m : string * Z) (k : Z) (j : nat).

(** The options of the list box come in the order of the declaration,
    one per member, each labelled with the member's name and carrying the
    member's value, also as its key. *)
Theorem EnumInput_options_in_declaration_order ms k :
  wf_enum ms →
  options (EnumInput k (enum_object ms))
  = (λ m, {| key := JNumber m.2; optionValue := JNumber m.2; text := m.1 |})
    <$> ms.
Proof.
  intros Hwf. simpl. rewrite enum_object_numeric_entries by done.
  by rewrite <- list_fmap_compose.
Qed.

Lemma EnumInput_options_in_declaration_order_witness :
  options (EnumInput 1 (enum_object [("Good", 1); ("Evil", 2)]))
  = [{| key := JNumber 1; optionValue := JNumber 1; text := "Good" |};
     {| key := JNumber 2; optionValue := JNumber 2; text := "Evil" |}].
Proof.
  apply (EnumInput_options_in_declaration_order [("Good", 1); ("Evil", 2)] 1).
  split; [apply (bool_decide_unpack _); by vm_compute|]. repeat constructor.
Defined.

(** Picking an option and reading the button: once the value of the
    picked option is the current one, the button shows the name of the
    last member declared with that value; when the members have distinct
    values, that is the label of the option that was picked, whatever the
    values are. *)
Theorem EnumInput_pick_then_button ms k o :
  wf_enum ms →
  o ∈ options (EnumInput k (enum_object ms)) →
  ∃ n, select o = JNumber n
       ∧ button (EnumInput n (enum_object ms)) = alias ms n
       ∧ (NoDup ms.*2 →
          button (EnumInput n (enum_object ms)) = JString (text o)).
Proof.
  intros Hwf. rewrite EnumInput_options_in_declaration_order by done.
  intros (m & -> & Hm)%list_elem_of_fmap. exists m.2.
  split; [done|]. rewrite EnumInput_button_enum_object by done.
  split; [done|]. intros Hnd. simpl.
  destruct (alias_cases ms m.2) as [[_ Hnone]|(m' & Hm' & Hk & ->)].
  - by destruct (Hnone m Hm).
  - f_equal. f_equal.
    apply list_elem_of_lookup_1 in Hm as [i Hi].
    apply list_elem_of_lookup_1 in Hm' as [i' Hi'].
    assert (i' = i) as ->; [|congruence].
    eapply NoDup_lookup; [exact Hnd| |].
    + by rewrite list_lookup_fmap, Hi'.
    + rewrite list_lookup_fmap, Hi. simpl. by rewrite Hk.
Qed.

Lemma EnumInput_pick_then_button_witness :
  Forall (λ o, ∃ n, select o = JNumber n
                    ∧ button (EnumInput n (enum_object [("Good", 1); ("Evil", 2)]))
                      = JString (text o))
         (options (EnumInput 1 (enum_object [("Good", 1); ("Evil", 2)]))).
Proof.
  apply Forall_forall. intros o Ho.
  destruct (EnumInput_pick_then_button [("Good", 1); ("Evil", 2)] 1 o)
    as (n & Hn & _ & Hbutton).
  - split; [apply (bool_decide_unpack _); by vm_compute|]. repeat constructor.
  - exact Ho.
  - exists n. split; [exact Hn|]. apply Hbutton.
    apply (bool_decide_unpack _). by vm_compute.
Defined.

(** The display goes by position, not by value: for the value of a
    member, it shows that member's own name exactly when the value equals
    the position of the member in the declaration. *)
Theorem EnumDisplay_own_name_iff ms j m :
  wf_enum ms →
  ms !! j = Some m →
  EnumDisplay m.2 (enum_object ms) = JString m.1 ↔ m.2 = Z.of_nat j.
Proof.
  intros Hwf Hm. split.
  - intros Hshown. unfold EnumDisplay, labels in Hshown.
    rewrite enum_object_numeric_entries in Hshown by done.
    unfold Array_get in Hshown. case_bool_decide as Hpos; [|done].
    rewrite !list_lookup_fmap in Hshown.
    destruct (ms !! Z.to_nat m.2) as [m'|] eqn:Hm'; [|done].
    injection Hshown as Hname.
    assert (m' = m) as ->.
    { destruct Hwf as [Hnd _]. apply (NoDup_fst_eq ms); [done| | |done];
        by eapply list_elem_of_lookup_2. }
    assert (NoDup ms) as Hnd.
    { destruct Hwf as [Hnd _]. by apply NoDup_fmap_1 in Hnd. }
    assert (Z.to_nat m.2 = j) by (by eapply NoDup_lookup). lia.
  - intros Hpos. apply EnumDisplay_enum_object; [done|lia|].
    by rewrite Hpos, Nat2Z.id.
Qed.

Lemma EnumDisplay_own_name_iff_witness :
  EnumDisplay 1 (enum_object [("Good", 1); ("Evil", 2)]) ≠ JString "Good".
Proof.
  intros Hshown.
  apply (EnumDisplay_own_name_iff [("Good", 1); ("Evil", 2)] 0 ("Good", 1))
    in Hshown.
  - discriminate Hshown.
  - split; [apply (bool_decide_unpack _); by vm_compute|]. repeat constructor.
  - reflexivity.
Defined.
End EnumTables.
